(** * Container archive codecs of [src/containers/archive/stl_types.hpp]

    A shallow embedding of the [operator<<] / [deserialize] overloads for
    [std::pair], [std::map], [std::set], [std::string], [std::vector] and
    [std::list], and the properties their description states about them.

    Integers of the C++ code are [Z] with their range written out, bytes are
    [Byte.byte], a [write_message_t] is the list of bytes appended to it, and
    a decoder is a function of the destination's previous value in a small
    state monad over the read stream. *)

From Stdlib Require Import ZArith List Bool Lia Sorted Permutation.
From coqutil Require Import Byte Word.LittleEndianList.
Import ListNotations.
Local Open Scope Z_scope.

(** ** The machine a decoder runs on *)

(** What a decoder does besides returning: the [force_read] calls it makes on
    the stream (with the number of bytes asked for) and the storage it
    allocates with a size taken from a decoded length or count field. *)
Inductive event : Type :=
| EvRead (n : Z)
| EvAlloc (n : Z).

(** A [read_stream_t] is the bytes still to come and what the source does
    once they are used up: end of stream ([hard_error = false]) or a hard
    error.  [log] records the events so far, newest first. *)
Record machine : Type := Machine {
  pending : list byte;
  hard_error : bool;
  log : list event
}.

(** A call returns a value in a new machine state, or has no defined
    behaviour from some state on, or (for the one recursive decoder, which is
    run with fuel) was given too little fuel. *)
Inductive outcome (A : Type) : Type :=
| Returns (a : A) (st : machine)
| Undefined (st : machine)
| OutOfFuel.
Arguments Returns {A} a st.
Arguments Undefined {A} st.
Arguments OutOfFuel {A}.

Definition M (A : Type) : Type := machine -> outcome A.

Definition ret {A} (a : A) : M A := fun st => Returns a st.

Definition bind {A B} (c : M A) (k : A -> M B) : M B :=
  fun st =>
    match c st with
    | Returns a st' => k a st'
    | Undefined st' => Undefined st'
    | OutOfFuel => OutOfFuel
    end.

Definition undefined {A} : M A := fun st => Undefined st.

Notation "x <- c ;; k" := (bind c (fun x => k))
  (at level 61, c at next level, right associativity).
Notation "' pat <- c ;; k" := (bind c (fun x => match x with pat => k end))
  (at level 61, pat pattern, c at next level, right associativity).
Notation "c ;;; k" := (bind c (fun _ => k))
  (at level 61, right associativity).

Definition emit (e : event) : M unit :=
  fun st => Returns tt (Machine (pending st) (hard_error st) (e :: log st)).

(** ** Collaborators declared in [containers/archive/archive.hpp] *)

(** Modelled from the spec: [force_read] of [archive.hpp], which is not part
    of the sources at hand.  "Source: supports reading a requested number of
    raw bytes, returning either the count actually read or a distinct hard
    error signal distinguishable from fewer bytes than requested."  It returns
    [n] and the [n] bytes when they are there, [-1] on a hard error, and
    otherwise the smaller number of bytes that were left. *)
Definition force_read (n : Z) : M (Z * list byte) :=
  fun st =>
    let l := EvRead n :: log st in
    if n <=? 0 then Returns (0, []) (Machine (pending st) (hard_error st) l)
    else if n <=? Z.of_nat (length (pending st)) then
      Returns (n, firstn (Z.to_nat n) (pending st))
              (Machine (skipn (Z.to_nat n) (pending st)) (hard_error st) l)
    else if hard_error st then
      Returns (-1, []) (Machine [] true l)
    else
      Returns (Z.of_nat (length (pending st)), pending st) (Machine [] false l).

(** The failure codes of a read ([0] is success): the source failed, or the
    stream ended early.  The string decoder has a third of its own, [-3]. *)
Definition ARCHIVE_SOCK_ERROR : Z := -1.
Definition ARCHIVE_SOCK_EOF : Z := -2.

Definition uint64_max : Z := 2 ^ 64 - 1.

(** Modelled from the spec: the scalar codec of [archive.hpp] for [uint64_t],
    "encode/decode for fixed-width integers, used for every length/count
    prefix": the eight bytes of the value, least significant first.  A failed
    read gives the code of its cause and leaves the destination as it was. *)
Definition serialize_uint64 (x : Z) : list byte := le_split 8 x.

Definition deserialize_uint64 (x : Z) : M (Z * Z) :=
  '(res, buf) <- force_read 8 ;;
  if res =? -1 then ret (ARCHIVE_SOCK_ERROR, x)
  else if res <? 8 then ret (ARCHIVE_SOCK_EOF, x)
  else ret (0, le_combine buf).

(** Modelled from the spec: the same codec for [int64_t], in two's
    complement. *)
Definition to_int64 (u : Z) : Z := if u <? 2 ^ 63 then u else u - 2 ^ 64.

Definition serialize_int64 (x : Z) : list byte := le_split 8 x.

Definition deserialize_int64 (x : Z) : M (Z * Z) :=
  '(res, buf) <- force_read 8 ;;
  if res =? -1 then ret (ARCHIVE_SOCK_ERROR, x)
  else if res <? 8 then ret (ARCHIVE_SOCK_EOF, x)
  else ret (0, to_int64 (le_combine buf)).

(** ** What the templates ask of an element type

    [fresh] is the value-initialised [T()], [valid] holds of the values the
    C++ type can hold, [serialize v] is what [msg << v] appends and
    [deserialize d] is [deserialize(s, &x)] run with [x = d]: it returns the
    result code and the new value of [x]. *)
Class Archive (T : Type) : Type := {
  fresh : T;
  valid : T -> bool;
  serialize : T -> list byte;
  deserialize : T -> M (Z * T)
}.

(** The element codec decodes what it encoded, into a fresh destination,
    leaving the bytes that follow. *)
Class ArchiveOk (T : Type) {A : Archive T} : Prop := {
  roundtrip : forall (v : T) (rest : list byte) (e : bool) (l : list event),
    valid v = true ->
    exists l', deserialize fresh (Machine (serialize v ++ rest) e l)
               = Returns (0, v) (Machine rest e l')
}.
Arguments ArchiveOk T {A}.

(** The comparison [operator<] of a key type. *)
Class Less (T : Type) : Type := ltb : T -> T -> bool.

(** [operator<] is a strict total order: the requirement of [std::map] and
    [std::set] on their comparison, with equivalent keys equal. *)
Class LessOk (T : Type) {L : Less T} : Prop := {
  ltb_irrefl : forall a, ltb a a = false;
  ltb_trans : forall a b c, ltb a b = true -> ltb b c = true -> ltb a c = true;
  ltb_total : forall a b, ltb a b = false -> ltb b a = false -> a = b
}.
Arguments LessOk T {L}.

#[export] Instance archive_uint64 : Archive Z := {|
  fresh := 0;
  valid := fun x => (0 <=? x) && (x <=? uint64_max);
  serialize := serialize_uint64;
  deserialize := deserialize_uint64
|}.

(** ** [std::pair<T, U>] *)

Section Pair.
Context {T U : Type} {AT : Archive T} {AU : Archive U}.

Definition serialize_pair (p : T * U) : list byte :=
  serialize (fst p) ++ serialize (snd p).

Definition deserialize_pair (p : T * U) : M (Z * (T * U)) :=
  '(res, a) <- deserialize (fst p) ;;
  if negb (res =? 0) then ret (res, (a, snd p))
  else
    '(res, b) <- deserialize (snd p) ;;
    ret (res, (a, b)).

Definition archive_pair : Archive (T * U) := {|
  fresh := (fresh, fresh);
  valid := fun p => valid (fst p) && valid (snd p);
  serialize := serialize_pair;
  deserialize := deserialize_pair
|}.
End Pair.

(** ** [std::string] *)

Definition std_string : Type := list byte.

Definition serialize_string (s : std_string) : list byte :=
  let sz := Z.of_nat (length s) in
  serialize_int64 sz ++ s.

(** [std::vector<char> v(sz)] filled by [force_read(s, v.data(), sz)]: the
    bytes read overwrite the front of the zeroed buffer. *)
Definition filled (sz : Z) (buf : list byte) : list byte :=
  buf ++ skipn (length buf) (repeat Byte.x00 (Z.to_nat sz)).

(** [EvAlloc sz] records the buffer [std::vector<char> v(sz)] asks for.
    Storage is taken to be there: where the allocation throws
    ([std::bad_alloc], [std::length_error]) the call is left by the
    exception, which the model does not follow. *)
Definition deserialize_string (out : std_string) : M (Z * std_string) :=
  let out : std_string := [] in
  '(res, sz) <- deserialize_int64 0 ;;
  if negb (res =? 0) then ret (res, out)
  else if sz <? 0 then ret (-3, out)
  else
    emit (EvAlloc sz) ;;;
    '(num_read, buf) <- force_read sz ;;
    if num_read =? -1 then ret (-1, out)
    else if num_read <? sz then ret (-2, out)
    else ret (0, filled sz buf).

#[export] Instance archive_string : Archive std_string := {|
  fresh := [];
  valid := fun s => Z.of_nat (length s) <? 2 ^ 63;
  serialize := serialize_string;
  deserialize := deserialize_string
|}.

(** ** The counted loop of the container decoders

    [for (uint64_t i = 0; i < sz; ++i) { res = ...; if (res) { return res; } }
    return 0;] with the loop's variables in [acc]: [n] iterations are left
    and the index is [i]. *)
Fixpoint for_loop {S : Type} (n : nat) (i : Z) (body : Z -> S -> M (Z * S))
    (acc : S) : M (Z * S) :=
  match n with
  | O => ret (0, acc)
  | Datatypes.S n' =>
      '(res, acc') <- body i acc ;;
      if negb (res =? 0) then ret (res, acc')
      else for_loop n' (i + 1) body acc'
  end.

(** [n] nested decodes in a row, each with result code [0], take the machine
    from the first state to the second. *)
Inductive decoded_ok {A : Type} (dec : M (Z * A)) : nat -> machine -> machine -> Prop :=
| decoded_none (st : machine) : decoded_ok dec O st st
| decoded_more (n : nat) (st st1 st2 : machine) (x : A) :
    dec st = Returns (0, x) st1 ->
    decoded_ok dec n st1 st2 ->
    decoded_ok dec (Datatypes.S n) st st2.

(** A counted decoder that starts in [st] stops in [st'] with the code [res]
    of its first failing nested decode: the decode of the count, or the
    decode of an element after fewer than count elements that decoded. *)
Definition first_failure {A : Type} (count : M (Z * Z)) (dec : M (Z * A))
    (res : Z) (st st' : machine) : Prop :=
  (exists x, count st = Returns (res, x) st')
  \/ (exists sz st1 n st2 x,
        count st = Returns (0, sz) st1
        /\ Z.of_nat n < sz
        /\ decoded_ok dec n st1 st2
        /\ dec st2 = Returns (res, x) st').

(** What [msg << sz; for (it ...) msg << *it;] appends. *)
Definition serialize_elements {T} {AT : Archive T} (v : list T) : list byte :=
  serialize_uint64 (Z.of_nat (length v)) ++ concat (map serialize v).

(** ** The ordered containers of the standard library

    [std::set] and [std::map] belong to the C++ standard library, which the
    codec uses and does not define; they are modelled as the library
    documents them.  A container is the list of its elements in iteration
    order, ascending by key; an iterator is an index into it and [end()] is
    its length.  [key] takes the key of an element: the element itself in a
    set, the first component in a map. *)
Section Tree.
Context {K E : Type} {LK : Less K} (key : E -> K).

Fixpoint ascending (m : list E) : bool :=
  match m with
  | [] => true
  | x :: m' =>
      match m' with
      | [] => true
      | y :: _ => ltb (key x) (key y) && ascending m'
      end
  end.

Definition equivalent (a b : K) : bool := negb (ltb a b) && negb (ltb b a).

(** The invariant of the container: every element is before the ones
    behind it. *)
Definition before (x y : E) : Prop := ltb (key x) (key y) = true.
Definition sorted (m : list E) : Prop := StronglySorted before m.

(** [find(k)] *)
Definition lookup (k : K) (m : list E) : option E :=
  find (fun y => equivalent (key y) k) m.

(** [insert(x)]: search from the front; an element with an equivalent key
    stays and [x] is dropped.  Returns the container and the iterator to
    the element with the key of [x]. *)
Fixpoint insert_unique (m : list E) (x : E) : list E * nat :=
  match m with
  | [] => ([x], O)
  | y :: m' =>
      if ltb (key x) (key y) then (x :: m, O)
      else if ltb (key y) (key x) then
        let (r, i) := insert_unique m' x in (y :: r, Datatypes.S i)
      else (m, O)
  end.

Definition insert_at (m : list E) (i : nat) (x : E) : list E :=
  firstn i m ++ x :: skipn i m.

(** [insert(position, x)]: the hint is tried first.  When [x] belongs just
    before [position] or just after it, it is placed there after a look at
    the one neighbour; when the element at [position] has an equivalent key
    nothing is inserted; otherwise the hint is of no use and the plain
    insertion does the work. *)
Definition insert_hint (m : list E) (position : nat) (x : E) : list E * nat :=
  let k := key x in
  match nth_error m position with
  | None =>
      match m with
      | [] => insert_unique m x
      | y :: m' =>
          if ltb (key (last m' y)) k then (m ++ [x], length m)
          else insert_unique m x
      end
  | Some y =>
      if ltb k (key y) then
        match position with
        | O => (x :: m, O)
        | Datatypes.S prev =>
            match nth_error m prev with
            | Some z =>
                if ltb (key z) k then (insert_at m position x, position)
                else insert_unique m x
            | None => insert_unique m x
            end
        end
      else if ltb (key y) k then
        match nth_error m (Datatypes.S position) with
        | None => (m ++ [x], length m)
        | Some z =>
            if ltb k (key z)
            then (insert_at m (Datatypes.S position) x, Datatypes.S position)
            else insert_unique m x
        end
      else (m, position)
  end.

(** The loop variables of the set and map decoders after one element. *)
Definition hinted (acc : list E * nat) (x : E) : list E * nat :=
  insert_hint (fst acc) (snd acc) x.

Definition unhinted (acc : list E * nat) (x : E) : list E * nat :=
  insert_unique (fst acc) x.
End Tree.

(** ** [std::list<T>] and [std::vector<T>] *)

Definition std_list (T : Type) : Type := list T.
Definition std_vector (T : Type) : Type := list T.

Section Sequences.
Context {T : Type} {AT : Archive T}.

Definition serialize_list (v : std_list T) : list byte := serialize_elements v.

(** There is no [v->clear()] in this decoder: the elements are pushed
    behind whatever [v] holds. *)
Definition deserialize_list (v : std_list T) : M (Z * std_list T) :=
  '(res, sz) <- deserialize_uint64 0 ;;
  if negb (res =? 0) then ret (res, v)
  else
    for_loop (Z.to_nat sz) 0
      (fun _ v =>
         (* v->push_back(T()); res = deserialize(s, &v->back()); *)
         '(res, x) <- deserialize fresh ;;
         ret (res, v ++ [x]))
      v.

Definition serialize_vector (v : std_vector T) : list byte := serialize_elements v.

(** [v] is a pointer, [std::vector<T> *v], so [v[i]] in
    [deserialize(s, &v[i])] is the pointer subscript [*(v + i)], a
    [std::vector<T>], and [&v[i]] is the [std::vector<T> *] [v + i]: the
    call is this very overload again, never the decoder of [T].  For
    [i = 0] it runs on [v] itself; for [i >= 1] it is handed the address
    behind the vector object, which has no defined behaviour (the
    destination is taken to be a single object, not an element of an array
    of vectors).  Each call reads the eight bytes of a count before it
    calls itself, so as many calls as there are pending bytes, and one,
    are enough fuel.  As for the string's buffer, the storage
    [v->resize(sz)] asks for is taken to be there; a run in which it throws
    is not followed. *)
Fixpoint deserialize_vector_fuel (fuel : nat) (v : std_vector T)
    : M (Z * std_vector T) :=
  match fuel with
  | O => fun _ => OutOfFuel
  | Datatypes.S fuel' =>
      let v : std_vector T := [] in
      '(res, sz) <- deserialize_uint64 0 ;;
      if negb (res =? 0) then ret (res, v)
      else
        emit (EvAlloc sz) ;;;
        for_loop (Z.to_nat sz) 0
          (fun i v =>
             if i =? 0 then deserialize_vector_fuel fuel' v else undefined)
          (repeat fresh (Z.to_nat sz))
  end.

Definition deserialize_vector (v : std_vector T) : M (Z * std_vector T) :=
  fun st => deserialize_vector_fuel (Datatypes.S (length (pending st))) v st.

Definition archive_list : Archive (std_list T) := {|
  fresh := [];
  valid := fun v => (Z.of_nat (length v) <=? uint64_max) && forallb valid v;
  serialize := serialize_list;
  deserialize := deserialize_list
|}.

Definition archive_vector : Archive (std_vector T) := {|
  fresh := [];
  valid := fun v => (Z.of_nat (length v) <=? uint64_max) && forallb valid v;
  serialize := serialize_vector;
  deserialize := deserialize_vector
|}.
End Sequences.

(** ** [std::set<T>] *)

Definition std_set (T : Type) : Type := list T.

Section Set_.
Context {T : Type} {AT : Archive T} {LT : Less T}.

Definition serialize_set (s : std_set T) : list byte := serialize_elements s.

Definition deserialize_set (out : std_set T) : M (Z * std_set T) :=
  let out : std_set T := [] in
  '(res, sz) <- deserialize_uint64 0 ;;
  if negb (res =? 0) then ret (res, out)
  else
    let position := O in
    '(res, acc) <-
      for_loop (Z.to_nat sz) 0
        (fun _ '(out, position) =>
           '(res, value) <- deserialize fresh ;;
           if negb (res =? 0) then ret (res, (out, position))
           else ret (0, insert_hint (fun x => x) out position value))
        (out, position) ;;
    ret (res, fst acc).

(** The same decoder with [out->insert(value)] in the place of
    [out->insert(position, value)]. *)
Definition deserialize_set_plain (out : std_set T) : M (Z * std_set T) :=
  let out : std_set T := [] in
  '(res, sz) <- deserialize_uint64 0 ;;
  if negb (res =? 0) then ret (res, out)
  else
    let position := O in
    '(res, acc) <-
      for_loop (Z.to_nat sz) 0
        (fun _ '(out, position) =>
           '(res, value) <- deserialize fresh ;;
           if negb (res =? 0) then ret (res, (out, position))
           else ret (0, insert_unique (fun x => x) out value))
        (out, position) ;;
    ret (res, fst acc).

Definition archive_set : Archive (std_set T) := {|
  fresh := [];
  valid := fun s => (Z.of_nat (length s) <=? uint64_max)
                    && forallb valid s && ascending (fun x => x) s;
  serialize := serialize_set;
  deserialize := deserialize_set
|}.
End Set_.

(** ** [std::map<K, V>] *)

Definition std_map (K V : Type) : Type := list (K * V).

Section Map_.
Context {K V : Type} {AK : Archive K} {AV : Archive V} {LK : Less K}.

Definition serialize_map (m : std_map K V) : list byte :=
  serialize_elements (AT := archive_pair) m.

Definition deserialize_map (m : std_map K V) : M (Z * std_map K V) :=
  let m : std_map K V := [] in
  '(res, sz) <- deserialize_uint64 0 ;;
  if negb (res =? 0) then ret (res, m)
  else
    let position := O in
    '(res, acc) <-
      for_loop (Z.to_nat sz) 0
        (fun _ '(m, position) =>
           '(res, p) <- deserialize_pair (fresh, fresh) ;;
           if negb (res =? 0) then ret (res, (m, position))
           else ret (0, insert_hint fst m position p))
        (m, position) ;;
    ret (res, fst acc).

(** The same decoder with [m->insert(p)] in the place of
    [m->insert(position, p)]. *)
Definition deserialize_map_plain (m : std_map K V) : M (Z * std_map K V) :=
  let m : std_map K V := [] in
  '(res, sz) <- deserialize_uint64 0 ;;
  if negb (res =? 0) then ret (res, m)
  else
    let position := O in
    '(res, acc) <-
      for_loop (Z.to_nat sz) 0
        (fun _ '(m, position) =>
           '(res, p) <- deserialize_pair (fresh, fresh) ;;
           if negb (res =? 0) then ret (res, (m, position))
           else ret (0, insert_unique fst m p))
        (m, position) ;;
    ret (res, fst acc).

Definition archive_map : Archive (std_map K V) := {|
  fresh := [];
  valid := fun m => (Z.of_nat (length m) <=? uint64_max)
                    && forallb (valid (Archive := archive_pair)) m
                    && ascending fst m;
  serialize := serialize_map;
  deserialize := deserialize_map
|}.
End Map_.

#[export] Instance less_uint64 : Less Z := Z.ltb.



(** The result codes the decoders of this file and the scalar codec give. *)
Definition archive_code (res : Z) : Prop :=
  res = 0 \/ res = -1 \/ res = -2 \/ res = -3.

(** * Properties *)

(** ** Running a sequence *)

Lemma bind_eq {A B : Type} (c : M A) (k : A -> M B) (st : machine) :
  bind c k st
  = match c st with
    | Returns a st' => k a st'
    | Undefined st' => Undefined st'
    | OutOfFuel => OutOfFuel
    end.
Proof. reflexivity. Qed.

Lemma bind_returns {A B : Type} (c : M A) (k : A -> M B) (st st' : machine) (a : A) :
  c st = Returns a st' -> bind c k st = k a st'.
Proof. intros H. rewrite bind_eq, H. reflexivity. Qed.

(** ** Reads *)

Lemma force_read_exact (bs rest : list byte) (e : bool) (l : list event) :
  force_read (Z.of_nat (length bs)) (Machine (bs ++ rest) e l)
  = Returns (Z.of_nat (length bs), bs)
            (Machine rest e (EvRead (Z.of_nat (length bs)) :: l)).
Proof.
  unfold force_read; simpl.
  destruct (Z.of_nat (length bs) <=? 0) eqn:Hz.
  - apply Z.leb_le in Hz. destruct bs; simpl in *; [reflexivity | lia].
  - rewrite length_app.
    replace (Z.of_nat (length bs) <=? Z.of_nat (length bs + length rest)) with true
      by (symmetry; apply Z.leb_le; lia).
    rewrite Nat2Z.id, firstn_app, skipn_app, firstn_all, skipn_all, Nat.sub_diag.
    simpl. rewrite app_nil_r. reflexivity.
Qed.

(** What a [force_read] does to the machine, whatever it returns. *)
Lemma force_read_inv (n : Z) (st : machine) :
  exists num buf st',
    force_read n st = Returns (num, buf) st'
    /\ log st' = EvRead n :: log st
    /\ hard_error st' = hard_error st
    /\ (length (pending st') <= length (pending st))%nat
    /\ ((num = n /\ 0 < n /\ Z.of_nat (length buf) = n
         /\ pending st = buf ++ pending st')
        \/ (n <= 0 /\ num = 0 /\ buf = [] /\ pending st' = pending st)
        \/ (Z.of_nat (length (pending st)) < n /\ pending st' = [] /\
            ((hard_error st = true /\ num = -1)
             \/ (hard_error st = false /\ num = Z.of_nat (length (pending st)))))).
Proof.
  unfold force_read.
  destruct (n <=? 0) eqn:H0.
  { apply Z.leb_le in H0. do 3 eexists. split; [reflexivity|]. simpl.
    split; [reflexivity | split; [reflexivity | split; [lia |]]].
    right; left. auto. }
  apply Z.leb_gt in H0.
  destruct (n <=? Z.of_nat (length (pending st))) eqn:H1.
  { apply Z.leb_le in H1. do 3 eexists. split; [reflexivity|]. simpl.
    split; [reflexivity | split; [reflexivity | split]].
    - rewrite length_skipn. lia.
    - left. split; [reflexivity | split; [lia | split]].
      + rewrite length_firstn. lia.
      + symmetry. apply firstn_skipn. }
  apply Z.leb_gt in H1.
  destruct (hard_error st) eqn:He.
  - do 3 eexists. split; [reflexivity|]. simpl.
    split; [reflexivity | split; [reflexivity | split; [lia |]]].
    right; right. auto.
  - do 3 eexists. split; [reflexivity|]. simpl.
    split; [reflexivity | split; [reflexivity | split; [lia |]]].
    right; right. auto.
Qed.

(** ** The scalar codec *)

Lemma length_serialize_uint64 (x : Z) : length (serialize_uint64 x) = 8%nat.
Proof. apply length_le_split. Qed.

Lemma deserialize_uint64_serialize (x d : Z) (rest : list byte) (e : bool)
    (l : list event) :
  0 <= x <= uint64_max ->
  deserialize_uint64 d (Machine (serialize_uint64 x ++ rest) e l)
  = Returns (0, x) (Machine rest e (EvRead 8 :: l)).
Proof.
  intros Hx. unfold deserialize_uint64, bind.
  pose proof (force_read_exact (serialize_uint64 x) rest e l) as H.
  rewrite length_serialize_uint64 in H. change (Z.of_nat 8) with 8 in H.
  rewrite H. simpl. unfold ret. f_equal. f_equal.
  unfold serialize_uint64. rewrite le_combine_split.
  apply Z.mod_small. unfold uint64_max in Hx. simpl. lia.
Qed.

Lemma to_int64_wrap (x : Z) :
  - 2 ^ 63 <= x < 2 ^ 63 -> to_int64 (x mod 2 ^ 64) = x.
Proof.
  intros Hx. unfold to_int64.
  destruct (Z.ltb_spec (x mod 2 ^ 64) (2 ^ 63)) as [H | H].
  - destruct (Z.neg_nonneg_cases x) as [Hn | Hn].
    + rewrite <- (Z.mod_unique_pos x (2 ^ 64) (- 1) (x + 2 ^ 64)) in H; lia.
    + apply Z.mod_small; lia.
  - destruct (Z.neg_nonneg_cases x) as [Hn | Hn].
    + rewrite <- (Z.mod_unique_pos x (2 ^ 64) (- 1) (x + 2 ^ 64)); lia.
    + rewrite Z.mod_small in H; lia.
Qed.

Lemma deserialize_int64_serialize (x d : Z) (rest : list byte) (e : bool)
    (l : list event) :
  - 2 ^ 63 <= x < 2 ^ 63 ->
  deserialize_int64 d (Machine (serialize_int64 x ++ rest) e l)
  = Returns (0, x) (Machine rest e (EvRead 8 :: l)).
Proof.
  intros Hx. unfold deserialize_int64, bind.
  pose proof (force_read_exact (serialize_int64 x) rest e l) as H.
  unfold serialize_int64 in *. rewrite length_le_split in H.
  change (Z.of_nat 8) with 8 in H.
  rewrite H. simpl. unfold ret. f_equal. f_equal.
  rewrite le_combine_split. apply to_int64_wrap. exact Hx.
Qed.

(** A count decode returns, with one of three codes; on success eight bytes
    are gone and the count is a [uint64_t]. *)
Lemma deserialize_uint64_inv (d : Z) (st : machine) :
  exists res x st',
    deserialize_uint64 d st = Returns (res, x) st'
    /\ log st' = EvRead 8 :: log st
    /\ hard_error st' = hard_error st
    /\ ((res = 0 /\ 0 <= x <= uint64_max
         /\ (length (pending st') + 8 = length (pending st))%nat
         /\ pending st = serialize_uint64 x ++ pending st')
        \/ (res = -1 /\ x = d) \/ (res = -2 /\ x = d)).
Proof.
  unfold deserialize_uint64, bind.
  destruct (force_read_inv 8 st) as (num & buf & st' & Hr & Hl & He & Hlen & Hc).
  rewrite Hr.
  destruct Hc as [(Hn & _ & Hb & Hp) | [(Hn & _) | (Hlt & Hp & Hc)]]; [| lia |].
  - subst num. change (8 =? -1) with false. change (8 <? 8) with false.
    cbv iota. do 3 eexists. split; [reflexivity|].
    split; [exact Hl | split; [exact He |]]. left.
    assert (Hb8 : length buf = 8%nat) by lia.
    pose proof (le_combine_bound buf) as Hbd. rewrite Hb8 in Hbd.
    split; [reflexivity|]. split; [| split].
    + unfold uint64_max. change (8 * Z.of_nat 8) with 64 in Hbd. lia.
    + rewrite Hp, length_app. lia.
    + unfold serialize_uint64. rewrite <- Hb8, split_le_combine. exact Hp.
  - destruct Hc as [(Hh & Hn) | (Hh & Hn)]; subst num.
    + change (-1 =? -1) with true. cbv iota.
      do 3 eexists. split; [reflexivity|].
      split; [exact Hl | split; [exact He |]]. right; left. auto.
    + destruct (Z.of_nat (length (pending st)) =? -1) eqn:E1;
        [apply Z.eqb_eq in E1; lia|].
      replace (Z.of_nat (length (pending st)) <? 8) with true
        by (symmetry; apply Z.ltb_lt; lia).
      do 3 eexists. split; [reflexivity|].
      split; [exact Hl | split; [exact He |]]. right; right. auto.
Qed.

(** ** The ordered containers *)

Section TreeFacts.
Context {K E : Type} {LK : Less K} {LKOk : LessOk K} (key : E -> K).

Lemma ltb_asym (a b : K) : ltb a b = true -> ltb b a = false.
Proof.
  intros H. destruct (ltb b a) eqn:H'; [|reflexivity].
  rewrite <- (ltb_irrefl a). symmetry. exact (ltb_trans a b a H H').
Qed.

Lemma equivalent_eq (a b : K) : equivalent a b = true <-> a = b.
Proof.
  unfold equivalent. split.
  - intros H. apply andb_true_iff in H. destruct H as [H1 H2].
    apply negb_true_iff in H1, H2. apply ltb_total; assumption.
  - intros ->. rewrite ltb_irrefl. reflexivity.
Qed.

Lemma ascending_sorted (m : list E) : ascending key m = true -> sorted key m.
Proof.
  induction m as [|x m IH]; intros H; [constructor|].
  destruct m as [|y m']; [constructor; constructor|].
  simpl in H. apply andb_true_iff in H. destruct H as [Hxy Hm].
  specialize (IH Hm). constructor; [exact IH|].
  constructor; [exact Hxy|].
  inversion IH as [|? ? _ Hall]; subst.
  eapply Forall_impl; [|exact Hall].
  intros z Hz. exact (ltb_trans _ _ _ Hxy Hz).
Qed.

Lemma sorted_app (a b : list E) :
  sorted key (a ++ b) ->
  sorted key a /\ sorted key b
  /\ Forall (fun u => Forall (before key u) b) a.
Proof.
  induction a as [|x a IH]; simpl; intros H.
  - repeat split; [constructor | exact H | constructor].
  - inversion H as [|? ? Hs Hall]; subst.
    destruct (IH Hs) as (Ha & Hb & Hab).
    apply Forall_app in Hall. destruct Hall as [Hxa Hxb].
    repeat split; [constructor; assumption | exact Hb |].
    constructor; assumption.
Qed.

(** The plain insertion walks past the elements before [x]. *)
Lemma insert_unique_app (a b : list E) (x : E) :
  Forall (fun y => before key y x) a ->
  insert_unique key (a ++ b) x
  = (a ++ fst (insert_unique key b x),
     (length a + snd (insert_unique key b x))%nat).
Proof.
  induction a as [|y a IH]; intros H.
  - simpl. destruct (insert_unique key b x). reflexivity.
  - inversion H as [|? ? Hy Ha]; subst. unfold before in Hy.
    simpl. rewrite (ltb_asym _ _ Hy), Hy, (IH Ha). reflexivity.
Qed.

(** Where [x] belongs between [a] and [b], that is where it goes. *)
Lemma insert_unique_between (a b : list E) (x : E) :
  Forall (fun y => before key y x) a ->
  match b with [] => True | z :: _ => before key x z end ->
  insert_unique key (a ++ b) x = (a ++ x :: b, length a).
Proof.
  intros Ha Hb. rewrite (insert_unique_app a b x Ha).
  destruct b as [|z b']; simpl.
  - rewrite Nat.add_0_r. reflexivity.
  - unfold before in Hb. rewrite Hb. simpl. rewrite Nat.add_0_r. reflexivity.
Qed.

Lemma before_all_trans (a : list E) (y x : E) :
  Forall (fun u => before key u y) a -> before key y x ->
  Forall (fun u => before key u x) (a ++ [y]).
Proof.
  intros Ha Hy. apply Forall_app. split.
  - eapply Forall_impl; [|exact Ha]. intros u Hu. exact (ltb_trans _ _ _ Hu Hy).
  - constructor; [exact Hy | constructor].
Qed.

Lemma sorted_snoc (a : list E) (y : E) :
  sorted key (a ++ [y]) -> Forall (fun u => before key u y) a.
Proof.
  intros H. destruct (sorted_app _ _ H) as (_ & _ & Hab).
  eapply Forall_impl; [|exact Hab].
  intros u Hu. inversion Hu; assumption.
Qed.

Lemma sorted_middle (a b : list E) (y : E) :
  sorted key (a ++ y :: b) -> Forall (fun u => before key u y) a.
Proof.
  intros H. destruct (sorted_app _ _ H) as (_ & _ & Hab).
  eapply Forall_impl; [|exact Hab].
  intros u Hu. inversion Hu; assumption.
Qed.

Lemma insert_unique_in (m : list E) (x u : E) :
  In u (fst (insert_unique key m x)) -> u = x \/ In u m.
Proof.
  induction m as [|y m IH]; simpl.
  - intros [H | []]. left. symmetry. exact H.
  - destruct (ltb (key x) (key y)); simpl.
    + intros [H | H]; [left; symmetry; exact H | right; exact H].
    + destruct (ltb (key y) (key x)); simpl; [|auto].
      destruct (insert_unique key m x) as [r i]. simpl in *.
      intros [H | H]; [right; left; exact H|].
      destruct (IH H) as [H' | H']; auto.
Qed.

Lemma insert_at_app (a b : list E) (x : E) :
  insert_at (a ++ b) (length a) x = a ++ x :: b.
Proof.
  unfold insert_at.
  rewrite firstn_app, skipn_app, firstn_all, skipn_all, Nat.sub_diag.
  simpl. rewrite app_nil_r. reflexivity.
Qed.

Lemma last_cons (y : E) (m : list E) : last (y :: m) y = last m y.
Proof. destruct m; reflexivity. Qed.

(** On a container that is in order, the insertion with a hint does what
    the plain insertion does, whatever the hint. *)
Lemma insert_hint_unique (m : list E) (position : nat) (x : E) :
  sorted key m -> insert_hint key m position x = insert_unique key m x.
Proof.
  intros Hs. unfold insert_hint.
  destruct (nth_error m position) as [y|] eqn:Hn.
  - destruct (nth_error_split _ _ Hn) as (a & b & Hm & Hlen).
    subst m. pose proof (sorted_middle a b y Hs) as Hay.
    destruct (ltb (key x) (key y)) eqn:Hxy.
    + destruct position as [|pred].
      * destruct a; [|discriminate]. simpl. rewrite Hxy. reflexivity.
      * destruct (nth_error (a ++ y :: b) pred) as [z|] eqn:Hz; [|reflexivity].
        destruct (ltb (key z) (key x)) eqn:Hzx; [|reflexivity].
        rewrite nth_error_app1 in Hz by lia.
        destruct (nth_error_split _ _ Hz) as (a1 & a2 & Ha & Hlen1).
        assert (a2 = []) as ->.
        { subst a. rewrite length_app in Hlen. simpl in Hlen.
          destruct a2; [reflexivity | simpl in Hlen; lia]. }
        destruct (sorted_app _ _ Hs) as (Hsa & _ & _).
        rewrite Ha in Hsa.
        pose proof (before_all_trans a1 z x (sorted_snoc a1 z Hsa) Hzx) as Hax.
        rewrite <- Ha in Hax.
        rewrite (insert_unique_between a (y :: b) x Hax Hxy).
        rewrite <- Hlen, insert_at_app. reflexivity.
    + destruct (ltb (key y) (key x)) eqn:Hyx.
      * pose proof (before_all_trans a y x Hay Hyx) as Hax.
        replace (a ++ y :: b) with ((a ++ [y]) ++ b)
          by (rewrite <- app_assoc; reflexivity).
        assert (Hl : length (a ++ [y]) = Datatypes.S position)
          by (rewrite length_app; simpl; lia).
        rewrite <- Hl, nth_error_app2, Nat.sub_diag by lia.
        destruct b as [|z b']; simpl nth_error; cbv beta iota.
        -- rewrite (insert_unique_between (a ++ [y]) [] x Hax I).
           rewrite !app_nil_r. reflexivity.
        -- destruct (ltb (key x) (key z)) eqn:Hxz; [|reflexivity].
           rewrite (insert_unique_between (a ++ [y]) (z :: b') x Hax Hxz).
           rewrite insert_at_app. reflexivity.
      * assert (Hk : key x = key y) by (apply ltb_total; assumption).
        assert (Hax : Forall (fun u => before key u x) a).
        { eapply Forall_impl; [|exact Hay]. unfold before.
          intros u Hu. rewrite Hk. exact Hu. }
        rewrite (insert_unique_app a (y :: b) x Hax).
        simpl. rewrite Hxy, Hyx. simpl. rewrite Nat.add_0_r, Hlen. reflexivity.
  - destruct m as [|y m']; [reflexivity|].
    destruct (ltb (key (last m' y)) (key x)) eqn:Hl; [|reflexivity].
    assert (Hm : y :: m' = removelast (y :: m') ++ [last m' y]).
    { rewrite <- last_cons. apply app_removelast_last. discriminate. }
    rewrite Hm in Hs.
    pose proof (before_all_trans _ _ x
                  (sorted_snoc _ _ Hs) Hl) as Hax.
    rewrite <- Hm in Hax.
    pose proof (insert_unique_between (y :: m') [] x Hax I) as Hi.
    rewrite app_nil_r in Hi. rewrite Hi. reflexivity.
Qed.

Lemma insert_unique_sorted (m : list E) (x : E) :
  sorted key m -> sorted key (fst (insert_unique key m x)).
Proof.
  induction m as [|y m IH]; intros Hs; simpl.
  - constructor; constructor.
  - inversion Hs as [|? ? Hm Hy]; subst.
    destruct (ltb (key x) (key y)) eqn:Hxy; simpl.
    + constructor; [exact Hs|]. constructor; [exact Hxy|].
      eapply Forall_impl; [|exact Hy].
      intros u Hu. exact (ltb_trans _ _ _ Hxy Hu).
    + destruct (ltb (key y) (key x)) eqn:Hyx; simpl; [|exact Hs].
      specialize (IH Hm).
      pose proof (insert_unique_in m x) as Hin.
      destruct (insert_unique key m x) as [r i]. simpl in *.
      constructor; [exact IH|].
      apply Forall_forall. intros u Hu.
      destruct (Hin u Hu) as [-> | Hu']; [exact Hyx|].
      rewrite Forall_forall in Hy. exact (Hy u Hu').
Qed.
End TreeFacts.

(** ** The counted loop *)

Lemma for_loop_succ {S : Type} (n : nat) (i : Z) (body : Z -> S -> M (Z * S))
    (acc : S) (st : machine) :
  for_loop (Datatypes.S n) i body acc st
  = match body i acc st with
    | Returns (res, acc') st' =>
        if negb (res =? 0) then Returns (res, acc') st'
        else for_loop n (i + 1) body acc' st'
    | Undefined st' => Undefined st'
    | OutOfFuel => OutOfFuel
    end.
Proof.
  simpl. rewrite bind_eq.
  destruct (body i acc st) as [[res acc'] st' | st' |]; try reflexivity.
  destruct (negb (res =? 0)); reflexivity.
Qed.

(** Two loop bodies that agree where an invariant of the loop variables
    holds run the same loop. *)
Lemma for_loop_ext {S : Type} (I : S -> Prop) (body1 body2 : Z -> S -> M (Z * S)) :
  (forall i acc st, I acc -> body1 i acc st = body2 i acc st) ->
  (forall i acc st res acc' st',
      I acc -> body2 i acc st = Returns (res, acc') st' -> I acc') ->
  forall n i acc st, I acc ->
    for_loop n i body1 acc st = for_loop n i body2 acc st.
Proof.
  intros Heq Hpres. induction n as [|n IH]; intros i acc st Hacc; simpl.
  - reflexivity.
  - unfold bind. rewrite (Heq i acc st Hacc).
    destruct (body2 i acc st) as [[res acc'] st' | st' |] eqn:Hb; try reflexivity.
    destruct (negb (res =? 0)); [reflexivity|].
    apply IH. exact (Hpres _ _ _ _ _ _ Hacc Hb).
Qed.

(** A loop whose body returns what its nested decode returns fails with the
    code of the first nested decode that fails, where that decode stopped. *)
Lemma for_loop_first_failure {S A : Type} (dec : M (Z * A))
    (body : Z -> S -> M (Z * S)) :
  (forall i acc st r acc' st',
      body i acc st = Returns (r, acc') st' ->
      exists x, dec st = Returns (r, x) st') ->
  forall n i acc st res acc' st',
    for_loop n i body acc st = Returns (res, acc') st' -> res <> 0 ->
    exists k st2 x,
      (k < n)%nat /\ decoded_ok dec k st st2 /\ dec st2 = Returns (res, x) st'.
Proof.
  intros Hbody. induction n as [|n IH]; intros i acc st res acc' st' Hrun Hres.
  - simpl in Hrun. unfold ret in Hrun. inversion Hrun; subst. contradiction.
  - simpl in Hrun. unfold bind in Hrun.
    destruct (body i acc st) as [[r acc1] st1 | st1 |] eqn:Hb; try discriminate.
    destruct (Hbody _ _ _ _ _ _ Hb) as (x & Hdec).
    destruct (Z.eqb_spec r 0) as [-> | Hr]; simpl in Hrun.
    + destruct (IH _ _ _ _ _ _ Hrun Hres) as (k & st2 & y & Hk & Hok & Hy).
      exists (Datatypes.S k), st2, y. split; [lia|]. split; [|exact Hy].
      econstructor; eassumption.
    + unfold ret in Hrun. inversion Hrun; subst.
      exists O, st, x. split; [lia|]. split; [constructor | exact Hdec].
Qed.

Section Elements.
Context {T : Type} {AT : Archive T} {ATOk : ArchiveOk T}.

(** A loop whose body decodes one element and folds it into the loop
    variables with [step] consumes the encoded elements one by one. *)
Lemma for_loop_decode {S : Type} (step : S -> T -> S)
    (body : Z -> S -> M (Z * S)) :
  (forall i acc x st st',
      deserialize fresh st = Returns (0, x) st' ->
      body i acc st = Returns (0, step acc x) st') ->
  forall (xs : list T) i acc rest e l,
    forallb valid xs = true ->
    exists l',
      for_loop (length xs) i body acc
               (Machine (concat (map serialize xs) ++ rest) e l)
      = Returns (0, fold_left step xs acc) (Machine rest e l').
Proof.
  intros Hbody. induction xs as [|x xs IH]; intros i acc rest e l Hv.
  - exists l. reflexivity.
  - simpl in Hv. apply andb_true_iff in Hv. destruct Hv as [Hx Hxs].
    simpl. rewrite <- app_assoc.
    destruct (roundtrip x (concat (map serialize xs) ++ rest) e l Hx)
      as (l1 & Hdec).
    unfold bind. rewrite (Hbody i acc x _ _ Hdec). simpl.
    apply IH. exact Hxs.
Qed.
End Elements.

(** ** Decoding what was encoded *)

#[export] Instance archive_uint64_ok : ArchiveOk Z.
Proof.
  constructor. intros v rest e l Hv. simpl in Hv.
  apply andb_true_iff in Hv. destruct Hv as [H0 H1].
  apply Z.leb_le in H0, H1.
  exists (EvRead 8 :: l). apply deserialize_uint64_serialize. lia.
Qed.

Lemma deserialize_string_serialize (s d : std_string) (rest : list byte)
    (e : bool) (l : list event) :
  Z.of_nat (length s) < 2 ^ 63 ->
  deserialize_string d (Machine (serialize_string s ++ rest) e l)
  = Returns (0, s)
      (Machine rest e
         (EvRead (Z.of_nat (length s)) :: EvAlloc (Z.of_nat (length s))
            :: EvRead 8 :: l)).
Proof.
  intros Hs. unfold deserialize_string, serialize_string, bind.
  rewrite <- app_assoc, deserialize_int64_serialize by lia.
  change (negb (0 =? 0)) with false. cbv iota.
  destruct (Z.ltb_spec (Z.of_nat (length s)) 0) as [H | _]; [lia|].
  unfold emit. cbn [pending hard_error log].
  rewrite force_read_exact.
  destruct (Z.eqb_spec (Z.of_nat (length s)) (-1)) as [H | _]; [lia|].
  rewrite Z.ltb_irrefl. unfold ret, filled.
  rewrite Nat2Z.id, skipn_all2, app_nil_r by (rewrite repeat_length; lia).
  reflexivity.
Qed.

#[export] Instance archive_string_ok : ArchiveOk std_string.
Proof.
  constructor. intros v rest e l Hv. simpl in Hv. apply Z.ltb_lt in Hv.
  eexists. apply deserialize_string_serialize. exact Hv.
Qed.

Lemma archive_pair_ok {T U : Type} {AT : Archive T} {AU : Archive U} :
  ArchiveOk T -> ArchiveOk U -> ArchiveOk (A := archive_pair) (T * U).
Proof.
  intros HT HU. constructor. intros [a b] rest e l Hv. simpl in Hv.
  apply andb_true_iff in Hv. destruct Hv as [Ha Hb].
  cbn [deserialize serialize fresh archive_pair].
  unfold deserialize_pair, serialize_pair, bind. cbn [fst snd].
  rewrite <- app_assoc.
  destruct (roundtrip a (serialize b ++ rest) e l Ha) as (l1 & H1).
  destruct (roundtrip b rest e l1 Hb) as (l2 & H2).
  rewrite H1. simpl. rewrite H2. exists l2. reflexivity.
Qed.

Lemma fold_push_back {T : Type} (xs acc : list T) :
  fold_left (fun v x => v ++ [x]) xs acc = acc ++ xs.
Proof.
  revert acc. induction xs as [|x xs IH]; intros acc; simpl.
  - rewrite app_nil_r. reflexivity.
  - rewrite IH, <- app_assoc. reflexivity.
Qed.

Lemma archive_list_ok {T : Type} {AT : Archive T} :
  ArchiveOk T -> ArchiveOk (A := archive_list) (std_list T).
Proof.
  intros HT. constructor. intros v rest e l Hv. simpl in Hv.
  apply andb_true_iff in Hv. destruct Hv as [Hlen Hall].
  apply Z.leb_le in Hlen.
  cbn [deserialize serialize fresh archive_list].
  unfold deserialize_list, serialize_list, serialize_elements.
  rewrite bind_eq, <- app_assoc, deserialize_uint64_serialize by lia.
  change (negb (0 =? 0)) with false. cbv iota. rewrite Nat2Z.id.
  assert (Hbody : forall (i : Z) (acc : std_list T) x st st',
             deserialize fresh st = Returns (0, x) st' ->
             ('(res, x) <- deserialize fresh ;; ret (res, acc ++ [x])) st
             = Returns (0, acc ++ [x]) st').
  { intros i acc x st st' H. unfold bind. rewrite H. reflexivity. }
  destruct (for_loop_decode (fun (v : std_list T) x => v ++ [x])
              (fun (_ : Z) (v : std_list T) =>
                 '(res, x) <- deserialize fresh ;; ret (res, v ++ [x]))
              Hbody v 0 [] rest e (EvRead 8 :: l) Hall) as (l' & Hrun).
  exists l'. rewrite fold_push_back in Hrun. exact Hrun.
Qed.

Section TreeRoundtrip.
Context {K E : Type} {LK : Less K} {LKOk : LessOk K} (key : E -> K).

Lemma fold_hinted_unhinted (xs : list E) (acc : list E * nat) :
  sorted key (fst acc) ->
  fold_left (hinted key) xs acc = fold_left (unhinted key) xs acc.
Proof.
  revert acc. induction xs as [|x xs IH]; intros acc Hs; simpl; [reflexivity|].
  unfold hinted at 2, unhinted at 2.
  rewrite (insert_hint_unique key _ _ _ Hs).
  apply IH. apply insert_unique_sorted; assumption.
Qed.

(** Elements that arrive in ascending order are appended one by one. *)
Lemma fold_hinted_ascending (xs m : list E) (position : nat) :
  sorted key (m ++ xs) ->
  fst (fold_left (hinted key) xs (m, position)) = m ++ xs.
Proof.
  revert m position. induction xs as [|x xs IH]; intros m position Hs; simpl.
  - rewrite app_nil_r. reflexivity.
  - unfold hinted at 2. simpl.
    destruct (sorted_app key _ _ Hs) as (Hm & _ & _).
    rewrite (insert_hint_unique key _ _ _ Hm).
    pose proof (insert_unique_between key m [] x (sorted_middle key _ _ _ Hs) I) as Hi.
    rewrite app_nil_r in Hi. rewrite Hi.
    replace (m ++ x :: xs) with ((m ++ [x]) ++ xs) in *
      by (rewrite <- app_assoc; reflexivity).
    apply IH. exact Hs.
Qed.
End TreeRoundtrip.

(** The set decoder, run on a count and as many encoded elements, in
    whatever order, folds them into the container with the hinted insertion. *)
Lemma deserialize_set_elements {T : Type} {AT : Archive T} {LT : Less T}
    (HT : ArchiveOk T) (v : list T) (d : std_set T) (rest : list byte)
    (e : bool) (l : list event) :
  Z.of_nat (length v) <= uint64_max ->
  forallb valid v = true ->
  exists l',
    deserialize_set d (Machine (serialize_elements v ++ rest) e l)
    = Returns (0, fst (fold_left (hinted (fun x => x)) v ([], O)))
              (Machine rest e l').
Proof.
  intros Hlen Hall.
  unfold deserialize_set, serialize_elements.
  rewrite bind_eq, <- app_assoc, deserialize_uint64_serialize by lia.
  change (negb (0 =? 0)) with false. cbv iota. rewrite Nat2Z.id, bind_eq.
  assert (Hbody : forall (i : Z) (acc : std_set T * nat) x st st',
             deserialize fresh st = Returns (0, x) st' ->
             (let '(out, position) := acc in
              '(res, value) <- deserialize fresh ;;
              if negb (res =? 0) then ret (res, (out, position))
              else ret (0, insert_hint (fun x => x) out position value)) st
             = Returns (0, hinted (fun x => x) acc x) st').
  { intros i [m pos] x st st' H. rewrite bind_eq, H. reflexivity. }
  destruct (for_loop_decode (hinted (fun x : T => x))
              (fun (_ : Z) '(out, position) =>
                 '(res, value) <- deserialize fresh ;;
                 if negb (res =? 0) then ret (res, (out, position))
                 else ret (0, insert_hint (fun x => x) out position value))
              Hbody v 0 ([], O) rest e (EvRead 8 :: l) Hall) as (l' & Hrun).
  exists l'.
  match goal with
  | |- match ?t with _ => _ end = _ =>
      replace t with (Returns (0, fold_left (hinted (fun x : T => x)) v ([], O))
                              (Machine rest e l'))
        by (symmetry; exact Hrun)
  end.
  reflexivity.
Qed.

Lemma archive_set_ok {T : Type} {AT : Archive T} {LT : Less T} :
  ArchiveOk T -> LessOk T -> ArchiveOk (A := archive_set) (std_set T).
Proof.
  intros HT HL. constructor. intros v rest e l Hv. simpl in Hv.
  apply andb_true_iff in Hv. destruct Hv as [Hv Hasc].
  apply andb_true_iff in Hv. destruct Hv as [Hlen Hall].
  apply Z.leb_le in Hlen.
  cbn [deserialize serialize fresh archive_set]. unfold serialize_set.
  destruct (deserialize_set_elements HT v [] rest e l Hlen Hall) as (l' & Hrun).
  exists l'. rewrite Hrun. f_equal. f_equal.
  apply (fold_hinted_ascending (fun x : T => x) v [] O).
  apply ascending_sorted. exact Hasc.
Qed.

(** The same for the map decoder and encoded pairs. *)
Lemma deserialize_map_elements {K V : Type} {AK : Archive K} {AV : Archive V}
    {LK : Less K} (HK : ArchiveOk K) (HV : ArchiveOk V) (v : list (K * V))
    (d : std_map K V) (rest : list byte) (e : bool) (l : list event) :
  Z.of_nat (length v) <= uint64_max ->
  forallb (valid (Archive := archive_pair)) v = true ->
  exists l',
    deserialize_map d
      (Machine (serialize_elements (AT := archive_pair) v ++ rest) e l)
    = Returns (0, fst (fold_left (hinted fst) v ([], O))) (Machine rest e l').
Proof.
  intros Hlen Hall.
  unfold deserialize_map, serialize_elements.
  rewrite bind_eq, <- app_assoc, deserialize_uint64_serialize by lia.
  change (negb (0 =? 0)) with false. cbv iota. rewrite Nat2Z.id, bind_eq.
  assert (Hbody : forall (i : Z) (acc : std_map K V * nat) x st st',
             deserialize_pair (fresh, fresh) st = Returns (0, x) st' ->
             (let '(m, position) := acc in
              '(res, p) <- deserialize_pair (fresh, fresh) ;;
              if negb (res =? 0) then ret (res, (m, position))
              else ret (0, insert_hint fst m position p)) st
             = Returns (0, hinted fst acc x) st').
  { intros i [m pos] x st st' H. rewrite bind_eq, H. reflexivity. }
  destruct (for_loop_decode (AT := archive_pair) (ATOk := archive_pair_ok HK HV)
              (hinted fst)
              (fun (_ : Z) '(m, position) =>
                 '(res, p) <- deserialize_pair (fresh, fresh) ;;
                 if negb (res =? 0) then ret (res, (m, position))
                 else ret (0, insert_hint fst m position p))
              Hbody v 0 ([], O) rest e (EvRead 8 :: l) Hall) as (l' & Hrun).
  exists l'.
  match goal with
  | |- match ?t with _ => _ end = _ =>
      replace t with (Returns (0, fold_left (hinted fst) v ([], O))
                              (Machine rest e l'))
        by (symmetry; exact Hrun)
  end.
  reflexivity.
Qed.

Lemma archive_map_ok {K V : Type} {AK : Archive K} {AV : Archive V}
    {LK : Less K} :
  ArchiveOk K -> ArchiveOk V -> LessOk K ->
  ArchiveOk (A := archive_map) (std_map K V).
Proof.
  intros HK HV HL. constructor. intros v rest e l Hv.
  cbn [valid archive_map] in Hv.
  apply andb_true_iff in Hv. destruct Hv as [Hv Hasc].
  apply andb_true_iff in Hv. destruct Hv as [Hlen Hall].
  apply Z.leb_le in Hlen.
  cbn [deserialize serialize fresh archive_map]. unfold serialize_map.
  destruct (deserialize_map_elements HK HV v [] rest e l Hlen Hall) as (l' & Hrun).
  exists l'. rewrite Hrun. f_equal. f_equal.
  apply (fold_hinted_ascending fst v [] O).
  apply ascending_sorted. exact Hasc.
Qed.

(** ** The vector decoder *)

Section VectorFacts.
Context {T : Type} {AT : Archive T}.

(** Behind index [0] the loop of the vector decoder has no defined
    behaviour, whatever the call it makes at index [0] is. *)
Lemma vector_loop_tail (f g : std_vector T -> M (Z * std_vector T))
    (n : nat) (i : Z) (acc : std_vector T) (st : machine) :
  0 < i ->
  for_loop n i (fun i v => if i =? 0 then f v else undefined) acc st
  = for_loop n i (fun i v => if i =? 0 then g v else undefined) acc st.
Proof.
  intros Hi. destruct n as [|n]; [reflexivity|].
  simpl. rewrite !bind_eq.
  destruct (Z.eqb_spec i 0) as [H | _]; [lia | reflexivity].
Qed.

(** More fuel than pending bytes is as good as any greater amount. *)
Lemma deserialize_vector_fuel_stable (fuel1 fuel2 : nat) (v : std_vector T)
    (st : machine) :
  (length (pending st) < fuel1)%nat -> (length (pending st) < fuel2)%nat ->
  deserialize_vector_fuel fuel1 v st = deserialize_vector_fuel fuel2 v st.
Proof.
  revert fuel2 v st.
  induction fuel1 as [|f1 IH]; intros fuel2 v st H1 H2; [lia|].
  destruct fuel2 as [|f2]; [lia|].
  simpl. rewrite !bind_eq.
  destruct (deserialize_uint64_inv 0 st) as (res & x & st' & Hd & Hl & He & Hc).
  rewrite Hd.
  destruct Hc as [(-> & Hx & Hlen & Hp) | [(-> & _) | (-> & _)]];
    try reflexivity.
  change (negb (0 =? 0)) with false; cbv iota.
  rewrite !bind_eq. unfold emit.
  destruct (Z.to_nat x) as [|n]; [reflexivity|].
  simpl for_loop. rewrite !bind_eq. change (0 =? 0) with true. cbv iota.
  rewrite (IH f2) by (simpl; lia).
  destruct (deserialize_vector_fuel f2 _ _) as [[r acc] st2 | st2 |];
    try reflexivity.
  destruct (negb (r =? 0)); [reflexivity|].
  apply vector_loop_tail. lia.
Qed.

Lemma deserialize_vector_enough (fuel : nat) (v : std_vector T) (st : machine) :
  (length (pending st) < fuel)%nat ->
  deserialize_vector_fuel fuel v st = deserialize_vector v st.
Proof.
  intros H. unfold deserialize_vector.
  apply deserialize_vector_fuel_stable; lia.
Qed.

(** One step of the vector decoder, with the call at index [0] written as
    the decoder itself. *)
Lemma deserialize_vector_step (v : std_vector T) (st : machine) :
  deserialize_vector v st
  = ('(res, sz) <- deserialize_uint64 0 ;;
     if negb (res =? 0) then ret (res, [])
     else
       emit (EvAlloc sz) ;;;
       for_loop (Z.to_nat sz) 0
         (fun i v => if i =? 0 then deserialize_vector v else undefined)
         (repeat fresh (Z.to_nat sz))) st.
Proof.
  unfold deserialize_vector at 1. simpl. rewrite !bind_eq.
  destruct (deserialize_uint64_inv 0 st) as (res & x & st' & Hd & Hl & He & Hc).
  rewrite Hd.
  destruct Hc as [(-> & Hx & Hlen & Hp) | [(-> & _) | (-> & _)]];
    try reflexivity.
  change (negb (0 =? 0)) with false; cbv iota.
  rewrite !bind_eq. unfold emit.
  destruct (Z.to_nat x) as [|n]; [reflexivity|].
  simpl for_loop. rewrite !bind_eq. change (0 =? 0) with true. cbv iota.
  rewrite deserialize_vector_enough by (simpl; lia).
  destruct (deserialize_vector _ _) as [[r acc] st2 | st2 |];
    try reflexivity.
  destruct (negb (r =? 0)); [reflexivity|].
  apply vector_loop_tail. lia.
Qed.

(** The fuel is never what stops the vector decoder. *)
Lemma deserialize_vector_fuel_defined (fuel : nat) (v : std_vector T)
    (st : machine) :
  (length (pending st) < fuel)%nat ->
  deserialize_vector_fuel fuel v st <> OutOfFuel.
Proof.
  revert v st. induction fuel as [|f IH]; intros v st H; [lia|].
  simpl. rewrite bind_eq.
  destruct (deserialize_uint64_inv 0 st) as (res & x & st' & Hd & Hl & He & Hc).
  rewrite Hd.
  destruct Hc as [(-> & Hx & Hlen & Hp) | [(-> & _) | (-> & _)]];
    try discriminate.
  change (negb (0 =? 0)) with false; cbv iota.
  rewrite bind_eq. unfold emit.
  destruct (Z.to_nat x) as [|n]; [discriminate|].
  simpl for_loop. rewrite bind_eq. change (0 =? 0) with true. cbv iota.
  specialize (IH (repeat fresh (Datatypes.S n))
                 (Machine (pending st') (hard_error st') (EvAlloc x :: log st'))).
  destruct (deserialize_vector_fuel f _ _) as [[r acc] st2 | st2 |];
    [| discriminate | apply IH; simpl; lia].
  destruct (negb (r =? 0)); [discriminate|].
  destruct n as [|n]; [discriminate|].
  simpl. rewrite bind_eq. discriminate.
Qed.

(** Whatever the stream holds, the vector decoder never returns an
    element. *)
Lemma deserialize_vector_fuel_empty (fuel : nat) (v v' : std_vector T)
    (st st' : machine) (res : Z) :
  deserialize_vector_fuel fuel v st = Returns (res, v') st' -> v' = [].
Proof.
  revert v v' st st' res.
  induction fuel as [|f IH]; intros v v' st st' res H; [discriminate|].
  simpl in H. rewrite bind_eq in H.
  destruct (deserialize_uint64 0 st) as [[r x] st1 | st1 |]; try discriminate.
  destruct (negb (r =? 0)).
  { inversion H. reflexivity. }
  rewrite bind_eq in H. unfold emit in H.
  destruct (Z.to_nat x) as [|n].
  { simpl in H. inversion H. reflexivity. }
  simpl for_loop in H. rewrite bind_eq in H.
  change (0 =? 0) with true in H. cbv iota in H.
  destruct (deserialize_vector_fuel f _ _) as [[r1 acc] st2 | st2 |] eqn:Hrec;
    try discriminate.
  apply IH in Hrec. subst acc.
  destruct (negb (r1 =? 0)).
  { inversion H. reflexivity. }
  destruct n as [|n].
  { inversion H. reflexivity. }
  simpl in H. rewrite bind_eq in H. discriminate.
Qed.

(** The vector decoder always comes to an outcome of its own: a return or
    the undefined step, never a lack of fuel. *)
Lemma deserialize_vector_defined (v : std_vector T) (st : machine) :
  deserialize_vector v st <> OutOfFuel.
Proof.
  unfold deserialize_vector. apply deserialize_vector_fuel_defined. lia.
Qed.

Lemma deserialize_vector_returns_empty (v v' : std_vector T) (st st' : machine)
    (res : Z) :
  deserialize_vector v st = Returns (res, v') st' -> v' = [].
Proof. unfold deserialize_vector. apply deserialize_vector_fuel_empty. Qed.
End VectorFacts.

(** ** The string decoder *)

Lemma deserialize_int64_log (d : Z) (st st1 : machine) (res x : Z) :
  deserialize_int64 d st = Returns (res, x) st1 ->
  log st1 = EvRead 8 :: log st.
Proof.
  unfold deserialize_int64. rewrite bind_eq.
  destruct (force_read_inv 8 st) as (num & buf & st' & Hr & Hl & _).
  rewrite Hr. intros H.
  destruct (num =? -1); [|destruct (num <? 8)];
    unfold ret in H; inversion H; subst; exact Hl.
Qed.

(** C2: when the length field of a string decodes as a negative [int64_t],
    [deserialize] returns [-3] and leaves the machine as the decode of the
    length field left it: no byte behind the field is consumed and the only
    read ever made is the one of the field's eight bytes. *)
Theorem string_negative_length_rejected (out : std_string) (st st1 : machine)
    (sz : Z) :
  deserialize_int64 0 st = Returns (0, sz) st1 ->
  sz < 0 ->
  deserialize_string out st = Returns (-3, []) st1
  /\ log st1 = EvRead 8 :: log st.
Proof.
  intros Hlen Hneg. split.
  - unfold deserialize_string. rewrite (bind_returns _ _ _ _ _ Hlen).
    change (negb (0 =? 0)) with false. cbv iota.
    destruct (Z.ltb_spec sz 0) as [_ | H]; [reflexivity | lia].
  - exact (deserialize_int64_log _ _ _ _ _ Hlen).
Qed.

Lemma string_negative_length_rejected_witness :
  deserialize_string [Byte.x7a]
    (Machine (serialize_int64 (-1) ++ [Byte.x68; Byte.x69]) false [])
  = Returns (-3, []) (Machine [Byte.x68; Byte.x69] false [EvRead 8])
  /\ [EvRead 8] = [EvRead 8].
Proof.
  apply (string_negative_length_rejected [Byte.x7a]
           (Machine (serialize_int64 (-1) ++ [Byte.x68; Byte.x69]) false [])
           (Machine [Byte.x68; Byte.x69] false [EvRead 8]) (-1)).
  - reflexivity.
  - lia.
Defined.

(** C5: once a length [L >= 0] has been decoded, the string decoder asks the
    source for [L] bytes and returns [-1] exactly when the source signals a
    hard error ([force_read] returns [-1]) and [-2] exactly when the source
    returns fewer than [L] bytes without a hard error; the two codes differ,
    so the causes are told apart. *)
Theorem string_read_errors_distinct (out : std_string) (st st1 st2 : machine)
    (L num : Z) (buf : list byte) :
  deserialize_int64 0 st = Returns (0, L) st1 ->
  0 <= L ->
  force_read L (Machine (pending st1) (hard_error st1) (EvAlloc L :: log st1))
  = Returns (num, buf) st2 ->
  exists res out',
    deserialize_string out st = Returns (res, out') st2
    /\ (res = -1 <-> num = -1)
    /\ (res = -2 <-> (num <> -1 /\ num < L)).
Proof.
  intros Hlen HL Hread.
  unfold deserialize_string. rewrite (bind_returns _ _ _ _ _ Hlen).
  change (negb (0 =? 0)) with false. cbv iota.
  destruct (Z.ltb_spec L 0) as [H | _]; [lia|].
  rewrite bind_eq. unfold emit. rewrite (bind_returns _ _ _ _ _ Hread).
  destruct (Z.eqb_spec num (-1)) as [Hn | Hn].
  - exists (-1), []. split; [reflexivity|]. split; [tauto | lia].
  - destruct (Z.ltb_spec num L) as [Hlt | Hge].
    + exists (-2), []. split; [reflexivity|]. split; [lia | tauto].
    + exists 0, (filled L buf). split; [reflexivity|]. split; lia.
Qed.

Lemma string_read_errors_distinct_witness :
  (exists res out',
     deserialize_string []
       (Machine (serialize_int64 5 ++ [Byte.x68; Byte.x69]) true [])
     = Returns (res, out') (Machine [] true [EvRead 5; EvAlloc 5; EvRead 8])
     /\ (res = -1 <-> -1 = -1)
     /\ (res = -2 <-> (-1 <> -1 /\ -1 < 5)))
  /\ (exists res out',
     deserialize_string []
       (Machine (serialize_int64 5 ++ [Byte.x68; Byte.x69]) false [])
     = Returns (res, out') (Machine [] false [EvRead 5; EvAlloc 5; EvRead 8])
     /\ (res = -1 <-> 2 = -1)
     /\ (res = -2 <-> (2 <> -1 /\ 2 < 5))).
Proof.
  split.
  - apply (string_read_errors_distinct []
             (Machine (serialize_int64 5 ++ [Byte.x68; Byte.x69]) true [])
             (Machine [Byte.x68; Byte.x69] true [EvRead 8])
             (Machine [] true [EvRead 5; EvAlloc 5; EvRead 8]) 5 (-1) []).
    + reflexivity.
    + lia.
    + reflexivity.
  - apply (string_read_errors_distinct []
             (Machine (serialize_int64 5 ++ [Byte.x68; Byte.x69]) false [])
             (Machine [Byte.x68; Byte.x69] false [EvRead 8])
             (Machine [] false [EvRead 5; EvAlloc 5; EvRead 8]) 5 2
             [Byte.x68; Byte.x69]).
    + reflexivity.
    + lia.
    + reflexivity.
Defined.

(** C10: whenever the string decoder returns a code other than [0], for any
    stream and any previous value of the destination, the destination is
    left empty. *)
Theorem string_cleared_on_error (out out' : std_string) (st st' : machine)
    (res : Z) :
  deserialize_string out st = Returns (res, out') st' ->
  res <> 0 ->
  out' = [].
Proof.
  unfold deserialize_string. rewrite bind_eq.
  destruct (deserialize_int64 0 st) as [[r sz] st1 | st1 |]; try discriminate.
  destruct (negb (r =? 0)).
  { intros H _. inversion H. reflexivity. }
  destruct (sz <? 0).
  { intros H _. inversion H. reflexivity. }
  rewrite bind_eq. unfold emit. rewrite bind_eq.
  destruct (force_read sz _) as [[num buf] st2 | st2 |]; try discriminate.
  destruct (num =? -1).
  { intros H _. inversion H. reflexivity. }
  destruct (num <? sz).
  { intros H _. inversion H. reflexivity. }
  intros H Hres. inversion H. subst. contradiction.
Qed.

Lemma string_cleared_on_error_witness :
  deserialize_string [Byte.x7a; Byte.x7a]
    (Machine (serialize_int64 5 ++ [Byte.x68; Byte.x69]) false [])
  = Returns (-2, []) (Machine [] false [EvRead 5; EvAlloc 5; EvRead 8])
  /\ ([] : std_string) = [].
Proof.
  split; [reflexivity|].
  apply (string_cleared_on_error [Byte.x7a; Byte.x7a] []
           (Machine (serialize_int64 5 ++ [Byte.x68; Byte.x69]) false [])
           (Machine [] false [EvRead 5; EvAlloc 5; EvRead 8]) (-2)).
  - reflexivity.
  - lia.
Defined.

(** ** The pair decoder *)

(** C6: when the decode of the first component returns a code other than
    [0], the pair decoder returns that code in the machine state the failed
    decode left, so nothing of the second component is decoded; when it
    returns [0], the pair decoder returns what the decode of the second
    component returns. *)
Theorem pair_decode_order {T U : Type} {AT : Archive T} {AU : Archive U}
    (p : T * U) (st : machine) :
  (forall res a st1,
      deserialize (fst p) st = Returns (res, a) st1 -> res <> 0 ->
      deserialize_pair p st = Returns (res, (a, snd p)) st1)
  /\ (forall a st1 res b st2,
      deserialize (fst p) st = Returns (0, a) st1 ->
      deserialize (snd p) st1 = Returns (res, b) st2 ->
      deserialize_pair p st = Returns (res, (a, b)) st2).
Proof.
  split.
  - intros res a st1 H1 Hres. unfold deserialize_pair.
    rewrite (bind_returns _ _ _ _ _ H1).
    destruct (Z.eqb_spec res 0) as [H | _]; [contradiction | reflexivity].
  - intros a st1 res b st2 H1 H2. unfold deserialize_pair.
    rewrite (bind_returns _ _ _ _ _ H1).
    change (negb (0 =? 0)) with false. cbv iota.
    rewrite (bind_returns _ _ _ _ _ H2). reflexivity.
Qed.

Lemma pair_decode_order_witness :
  deserialize_pair (T := Z) (U := std_string) (7, [Byte.x7a])
    (Machine [Byte.x01; Byte.x02] true [])
  = Returns (-1, (7, [Byte.x7a])) (Machine [] true [EvRead 8])
  /\ deserialize_pair (T := Z) (U := std_string) (7, [Byte.x7a])
       (Machine (serialize_uint64 42 ++ serialize_int64 (-1)) false [])
     = Returns (-3, (42, [])) (Machine [] false [EvRead 8; EvRead 8]).
Proof.
  split.
  - apply (proj1 (pair_decode_order (T := Z) (U := std_string)
                    (7, [Byte.x7a]) (Machine [Byte.x01; Byte.x02] true []))).
    + reflexivity.
    + lia.
  - apply (proj2 (pair_decode_order (T := Z) (U := std_string)
                    (7, [Byte.x7a])
                    (Machine (serialize_uint64 42 ++ serialize_int64 (-1)) false []))
             42 (Machine (serialize_int64 (-1)) false [EvRead 8])).
    + reflexivity.
    + reflexivity.
Defined.

(** ** The set and map decoders *)

Section Lookup.
Context {K E : Type} {LK : Less K} {LKOk : LessOk K} (key : E -> K).

Lemma lookup_behind (x : E) (m : list E) :
  Forall (before key x) m -> lookup key (key x) m = None.
Proof.
  induction m as [|y m IH]; intros H; [reflexivity|].
  inversion H as [|? ? Hy Hm]; subst. unfold before in Hy.
  unfold lookup in *. simpl.
  destruct (equivalent (key y) (key x)) eqn:He; [|exact (IH Hm)].
  apply (equivalent_eq (LKOk := LKOk)) in He. rewrite He, ltb_irrefl in Hy.
  discriminate.
Qed.

(** The plain insertion leaves what can be found under a key as it is,
    and adds [x] under its own key when nothing was there. *)
Lemma lookup_insert_unique (m : list E) (x : E) (k : K) :
  sorted key m ->
  lookup key k (fst (insert_unique key m x))
  = match lookup key k m with
    | Some y => Some y
    | None => if equivalent (key x) k then Some x else None
    end.
Proof.
  induction m as [|y m IH]; intros Hs.
  - reflexivity.
  - inversion Hs as [|? ? Hm Hy]; subst. simpl insert_unique.
    destruct (ltb (key x) (key y)) eqn:Hxy.
    + cbn [fst]. unfold lookup. cbn [find].
      destruct (equivalent (key x) k) eqn:Hxk.
      * apply (equivalent_eq (LKOk := LKOk)) in Hxk. subst k.
        assert (Hall : Forall (before key x) (y :: m)).
        { constructor; [exact Hxy|].
          eapply Forall_impl; [|exact Hy].
          intros u Hu. exact (ltb_trans _ _ _ Hxy Hu). }
        pose proof (lookup_behind x (y :: m) Hall) as Hn.
        unfold lookup in Hn. cbn [find] in Hn. rewrite Hn. reflexivity.
      * destruct (equivalent (key y) k); [reflexivity|].
        destruct (find _ m); reflexivity.
    + destruct (ltb (key y) (key x)) eqn:Hyx.
      * specialize (IH Hm).
        destruct (insert_unique key m x) as [r i]. cbn [fst] in *.
        unfold lookup in *. cbn [find].
        destruct (equivalent (key y) k); [reflexivity | exact IH].
      * assert (Hk : key x = key y) by (apply ltb_total; assumption).
        cbn [fst]. unfold lookup. cbn [find]. rewrite Hk.
        destruct (equivalent (key y) k); [reflexivity|].
        destruct (find _ m); reflexivity.
Qed.

(** Of the elements inserted one after the other, the first with a key is
    the one found under it. *)
Lemma lookup_fold_unhinted (xs : list E) (acc : list E * nat) (k : K) :
  sorted key (fst acc) ->
  lookup key k (fst (fold_left (unhinted key) xs acc))
  = match lookup key k (fst acc) with
    | Some y => Some y
    | None => find (fun y => equivalent (key y) k) xs
    end.
Proof.
  revert acc. induction xs as [|x xs IH]; intros acc Hs; simpl.
  - destruct (lookup key k (fst acc)); reflexivity.
  - rewrite IH by (apply insert_unique_sorted; assumption).
    unfold unhinted. rewrite (lookup_insert_unique _ x k Hs).
    destruct (lookup key k (fst acc)); [reflexivity|].
    destruct (equivalent (key x) k); reflexivity.
Qed.

Lemma fold_unhinted_sorted (xs : list E) (acc : list E * nat) :
  sorted key (fst acc) -> sorted key (fst (fold_left (unhinted key) xs acc)).
Proof.
  revert acc. induction xs as [|x xs IH]; intros acc Hs; simpl; [exact Hs|].
  apply IH. apply insert_unique_sorted; assumption.
Qed.
End Lookup.

Section HintedDecoders.
Context {K V : Type} {AK : Archive K} {AV : Archive V} {LK : Less K}
        {LKOk : LessOk K}.

Lemma deserialize_set_hint_plain (out : std_set K) (st : machine) :
  deserialize_set out st = deserialize_set_plain out st.
Proof.
  unfold deserialize_set, deserialize_set_plain. rewrite !bind_eq.
  destruct (deserialize_uint64 0 st) as [[res sz] st1 | st1 |]; try reflexivity.
  destruct (negb (res =? 0)); [reflexivity|]. rewrite !bind_eq.
  match goal with
  | |- match ?a with _ => _ end = match ?b with _ => _ end =>
      assert (Hloop : a = b)
  end.
  { apply (for_loop_ext (fun acc : std_set K * nat => sorted (fun x => x) (fst acc))).
    - intros i [m pos] s Hs. rewrite !bind_eq.
      destruct (deserialize fresh s) as [[r x] s1 | s1 |]; try reflexivity.
      destruct (negb (r =? 0)); [reflexivity|].
      rewrite (insert_hint_unique (fun x => x) m pos x Hs). reflexivity.
    - intros i [m pos] s r acc' s' Hs. rewrite bind_eq.
      destruct (deserialize fresh s) as [[r1 x] s1 | s1 |]; try discriminate.
      destruct (negb (r1 =? 0)); intros H; inversion H; subst.
      + exact Hs.
      + apply insert_unique_sorted. exact Hs.
    - constructor. }
  rewrite Hloop. reflexivity.
Qed.

Lemma deserialize_map_hint_plain (m : std_map K V) (st : machine) :
  deserialize_map m st = deserialize_map_plain m st.
Proof.
  unfold deserialize_map, deserialize_map_plain. rewrite !bind_eq.
  destruct (deserialize_uint64 0 st) as [[res sz] st1 | st1 |]; try reflexivity.
  destruct (negb (res =? 0)); [reflexivity|]. rewrite !bind_eq.
  match goal with
  | |- match ?a with _ => _ end = match ?b with _ => _ end =>
      assert (Hloop : a = b)
  end.
  { apply (for_loop_ext (fun acc : std_map K V * nat => sorted fst (fst acc))).
    - intros i [m' pos] s Hs. rewrite !bind_eq.
      destruct (deserialize_pair (fresh, fresh) s) as [[r x] s1 | s1 |];
        try reflexivity.
      destruct (negb (r =? 0)); [reflexivity|].
      rewrite (insert_hint_unique fst m' pos x Hs). reflexivity.
    - intros i [m' pos] s r acc' s' Hs. rewrite bind_eq.
      destruct (deserialize_pair (fresh, fresh) s) as [[r1 x] s1 | s1 |];
        try discriminate.
      destruct (negb (r1 =? 0)); intros H; inversion H; subst.
      + exact Hs.
      + apply insert_unique_sorted. exact Hs.
    - constructor. }
  rewrite Hloop. reflexivity.
Qed.
End HintedDecoders.

#[export] Instance less_uint64_ok : LessOk Z.
Proof.
  constructor; unfold ltb, less_uint64.
  - intros a. apply Z.ltb_irrefl.
  - intros a b c H1 H2. apply Z.ltb_lt in H1, H2. apply Z.ltb_lt. lia.
  - intros a b H1 H2. apply Z.ltb_ge in H1, H2. lia.
Qed.

(** C8: the insertion with a position hint that the map and set decoders use
    gives the container that the insertion without a hint gives, for every
    sequence of elements in any order, and with it the decoders return the
    same on every stream. *)
Theorem hinted_insertion_is_plain {K V : Type} {AK : Archive K} {AV : Archive V}
    {LK : Less K} (LKOk : LessOk K) :
  (forall xs : list (K * V),
      fold_left (hinted fst) xs ([], O) = fold_left (unhinted fst) xs ([], O))
  /\ (forall xs : list K,
      fold_left (hinted (fun x => x)) xs ([], O)
      = fold_left (unhinted (fun x => x)) xs ([], O))
  /\ (forall (m : std_map K V) (st : machine),
      deserialize_map m st = deserialize_map_plain m st)
  /\ (forall (out : std_set K) (st : machine),
      deserialize_set out st = deserialize_set_plain out st).
Proof.
  split; [|split; [|split]].
  - intros xs. apply fold_hinted_unhinted. constructor.
  - intros xs. apply fold_hinted_unhinted. constructor.
  - apply deserialize_map_hint_plain.
  - apply deserialize_set_hint_plain.
Qed.

Lemma hinted_insertion_is_plain_witness :
  fold_left (hinted fst) [(3, 30); (1, 10); (2, 20); (1, 11); (5, 50); (4, 40)]
            ([], O)
  = ([(1, 10); (2, 20); (3, 30); (4, 40); (5, 50)], 3%nat)
  /\ deserialize_set (T := Z) []
       (Machine (serialize_set (T := Z) [3; 1; 2; 1]) false [])
     = Returns (0, [1; 2; 3])
         (Machine [] false [EvRead 8; EvRead 8; EvRead 8; EvRead 8; EvRead 8]).
Proof.
  split.
  - rewrite (proj1 (hinted_insertion_is_plain (K := Z) (V := Z) less_uint64_ok)).
    reflexivity.
  - rewrite (proj2 (proj2 (proj2
               (hinted_insertion_is_plain (K := Z) (V := Z) less_uint64_ok)))).
    reflexivity.
Defined.

(** C9: a map or set stream of a count and as many decodable elements, some
    of them with equal keys, decodes with result code [0]; the container is
    in order and under every key holds the first element of the stream with
    that key, the later ones having been dropped by the insertion. *)
Theorem duplicate_keys_absorbed {K V : Type} {AK : Archive K} {AV : Archive V}
    {LK : Less K} (HK : ArchiveOk K) (HV : ArchiveOk V) (LKOk : LessOk K) :
  (forall (elems : list (K * V)) (d : std_map K V) rest e l,
      Z.of_nat (length elems) <= uint64_max ->
      forallb (valid (Archive := archive_pair)) elems = true ->
      exists m l',
        deserialize_map d
          (Machine (serialize_elements (AT := archive_pair) elems ++ rest) e l)
        = Returns (0, m) (Machine rest e l')
        /\ sorted fst m
        /\ forall k, lookup fst k m
                     = find (fun p => equivalent (fst p) k) elems)
  /\ (forall (elems : list K) (d : std_set K) rest e l,
      Z.of_nat (length elems) <= uint64_max ->
      forallb valid elems = true ->
      exists s l',
        deserialize_set d (Machine (serialize_elements elems ++ rest) e l)
        = Returns (0, s) (Machine rest e l')
        /\ sorted (fun x => x) s
        /\ forall k, lookup (fun x => x) k s
                     = find (fun x => equivalent x k) elems).
Proof.
  split.
  - intros elems d rest e l Hlen Hall.
    destruct (deserialize_map_elements HK HV elems d rest e l Hlen Hall)
      as (l' & Hrun).
    exists (fst (fold_left (hinted fst) elems ([], O))), l'.
    split; [exact Hrun|].
    rewrite fold_hinted_unhinted by constructor. split.
    + apply fold_unhinted_sorted. constructor.
    + intros k. rewrite lookup_fold_unhinted by constructor. reflexivity.
  - intros elems d rest e l Hlen Hall.
    destruct (deserialize_set_elements HK elems d rest e l Hlen Hall)
      as (l' & Hrun).
    exists (fst (fold_left (hinted (fun x => x)) elems ([], O))), l'.
    split; [exact Hrun|].
    rewrite fold_hinted_unhinted by constructor. split.
    + apply fold_unhinted_sorted. constructor.
    + intros k. rewrite lookup_fold_unhinted by constructor. reflexivity.
Qed.

Lemma duplicate_keys_absorbed_witness :
  (exists m l',
     deserialize_map (K := Z) (V := std_string) []
       (Machine (serialize_elements (AT := archive_pair)
                   [(2, [Byte.x62]); (1, [Byte.x61]); (2, [Byte.x7a])]
                 ++ [Byte.xff]) false [])
     = Returns (0, m) (Machine [Byte.xff] false l')
     /\ sorted fst m
     /\ forall k, lookup fst k m
                  = find (fun p => equivalent (fst p) k)
                         [(2, [Byte.x62]); (1, [Byte.x61]); (2, [Byte.x7a])])
  /\ (exists s l',
     deserialize_set (T := Z) []
       (Machine (serialize_elements [5; 3; 5; 5] ++ []) false [])
     = Returns (0, s) (Machine [] false l')
     /\ sorted (fun x => x) s
     /\ forall k, lookup (fun x => x) k s
                  = find (fun x => equivalent x k) [5; 3; 5; 5]).
Proof.
  split.
  - apply (proj1 (duplicate_keys_absorbed (K := Z) (V := std_string)
                    archive_uint64_ok archive_string_ok less_uint64_ok)).
    + unfold uint64_max. simpl. lia.
    + reflexivity.
  - apply (proj2 (duplicate_keys_absorbed (K := Z) (V := std_string)
                    archive_uint64_ok archive_string_ok less_uint64_ok)).
    + unfold uint64_max. simpl. lia.
    + reflexivity.
Defined.

(** ** Failures of nested decodes *)

Section Propagation.
Context {T U : Type} {AT : Archive T} {AU : Archive U} {LT : Less T}.

Lemma deserialize_pair_failure (p p' : T * U) (st st' : machine) (res : Z) :
  deserialize_pair p st = Returns (res, p') st' -> res <> 0 ->
  (exists a, deserialize (fst p) st = Returns (res, a) st')
  \/ (exists a st1 b,
        deserialize (fst p) st = Returns (0, a) st1
        /\ deserialize (snd p) st1 = Returns (res, b) st').
Proof.
  unfold deserialize_pair. rewrite bind_eq.
  destruct (deserialize (fst p) st) as [[r a] st1 | st1 |]; try discriminate.
  destruct (Z.eqb_spec r 0) as [-> | Hr]; cbn [negb].
  - rewrite bind_eq.
    destruct (deserialize (snd p) st1) as [[r2 b] st2 | st2 |] eqn:H2;
      try discriminate.
    intros H _. inversion H; subst. right. exists a, st1, b. auto.
  - intros H _. inversion H; subst. left. exists a. reflexivity.
Qed.

Lemma deserialize_list_failure (v v' : std_list T) (st st' : machine) (res : Z) :
  deserialize_list v st = Returns (res, v') st' -> res <> 0 ->
  first_failure (deserialize_uint64 0) (deserialize (T := T) fresh) res st st'.
Proof.
  unfold deserialize_list. rewrite bind_eq.
  destruct (deserialize_uint64 0 st) as [[r sz] st1 | st1 |] eqn:Hc;
    try discriminate.
  destruct (Z.eqb_spec r 0) as [-> | Hr]; cbn [negb].
  - intros H Hres. right.
    eapply for_loop_first_failure in H; [| | exact Hres].
    + destruct H as (k & st2 & x & Hk & Hok & Hx).
      exists sz, st1, k, st2, x. repeat split; try eassumption. lia.
    + intros i acc s r0 acc' s' Hb. rewrite bind_eq in Hb.
      destruct (deserialize fresh s) as [[r1 x] s1 | s1 |];
        try discriminate.
      inversion Hb; subst. exists x. reflexivity.
  - intros H _. inversion H; subst. left. exists sz. exact Hc.
Qed.

Lemma deserialize_set_failure (out out' : std_set T) (st st' : machine) (res : Z) :
  deserialize_set out st = Returns (res, out') st' -> res <> 0 ->
  first_failure (deserialize_uint64 0) (deserialize (T := T) fresh) res st st'.
Proof.
  unfold deserialize_set. rewrite bind_eq.
  destruct (deserialize_uint64 0 st) as [[r sz] st1 | st1 |] eqn:Hc;
    try discriminate.
  destruct (Z.eqb_spec r 0) as [-> | Hr]; cbn [negb].
  - rewrite bind_eq.
    destruct (for_loop _ _ _ _ _) as [[r1 acc] st2 | st2 |] eqn:Hloop;
      try discriminate.
    intros H Hres. inversion H; subst. right.
    eapply for_loop_first_failure in Hloop; [| | exact Hres].
    + destruct Hloop as (k & st2 & x & Hk & Hok & Hx).
      exists sz, st1, k, st2, x. repeat split; try eassumption. lia.
    + intros i [m pos] s r0 acc' s' Hb. rewrite bind_eq in Hb.
      destruct (deserialize fresh s) as [[r1 x] s1 | s1 |];
        try discriminate.
      destruct (Z.eqb_spec r1 0) as [-> | Hr1]; cbn [negb] in Hb;
        inversion Hb; subst; exists x; reflexivity.
  - intros H _. inversion H; subst. left. exists sz. exact Hc.
Qed.

Lemma deserialize_map_failure (m m' : std_map T U) (st st' : machine) (res : Z) :
  deserialize_map m st = Returns (res, m') st' -> res <> 0 ->
  first_failure (deserialize_uint64 0)
    (deserialize_pair (T := T) (U := U) (fresh, fresh)) res st st'.
Proof.
  unfold deserialize_map. rewrite bind_eq.
  destruct (deserialize_uint64 0 st) as [[r sz] st1 | st1 |] eqn:Hc;
    try discriminate.
  destruct (Z.eqb_spec r 0) as [-> | Hr]; cbn [negb].
  - rewrite bind_eq.
    destruct (for_loop _ _ _ _ _) as [[r1 acc] st2 | st2 |] eqn:Hloop;
      try discriminate.
    intros H Hres. inversion H; subst. right.
    eapply for_loop_first_failure in Hloop; [| | exact Hres].
    + destruct Hloop as (k & st2 & x & Hk & Hok & Hx).
      exists sz, st1, k, st2, x. repeat split; try eassumption. lia.
    + intros i [m0 pos] s r0 acc' s' Hb. rewrite bind_eq in Hb.
      destruct (deserialize_pair (fresh, fresh) s) as [[r1 x] s1 | s1 |];
        try discriminate.
      destruct (Z.eqb_spec r1 0) as [-> | Hr1]; cbn [negb] in Hb;
        inversion Hb; subst; exists x; reflexivity.
  - intros H _. inversion H; subst. left. exists sz. exact Hc.
Qed.

End Propagation.


Section PropagationForward.
Context {T U : Type} {AT : Archive T} {AU : Archive U} {LT : Less T}.






End PropagationForward.



(** ** The list decoder and a destination that is not empty *)

(** What a list held before the call is still at its front afterwards. *)
Lemma deserialize_list_keeps {T : Type} {AT : Archive T} (v v' : std_list T)
    (st st' : machine) (res : Z) :
  deserialize_list v st = Returns (res, v') st' ->
  exists l, v' = v ++ l.
Proof.
  unfold deserialize_list. rewrite bind_eq.
  destruct (deserialize_uint64 0 st) as [[r sz] st1 | st1 |]; try discriminate.
  destruct (negb (r =? 0)).
  { intros H. inversion H. exists []. rewrite app_nil_r. reflexivity. }
  generalize (Z.to_nat sz) 0 v st1. clear.
  induction n as [|n IH]; intros i v st1 H.
  - inversion H. exists []. rewrite app_nil_r. reflexivity.
  - simpl in H. rewrite bind_eq in H.
    destruct (bind (deserialize fresh) _ st1) as [[r acc] st2 | st2 |] eqn:Hb;
      try discriminate.
    rewrite bind_eq in Hb.
    destruct (deserialize fresh st1) as [[r1 x] s1 | s1 |]; try discriminate.
    inversion Hb; subst.
    destruct (negb (r =? 0)).
    + inversion H. exists [x]. reflexivity.
    + destruct (IH _ _ _ H) as (l & Hl). exists (x :: l).
      rewrite Hl, <- app_assoc. reflexivity.
Qed.

(** C3 (the code does not do this): run on a destination that holds [7] and
    a stream of one element [9], the list decoder succeeds and leaves
    [7; 9]: the element from before the call is still there. *)
Theorem list_destination_not_cleared :
  deserialize_list (T := Z) [7] (Machine (serialize_list (T := Z) [9]) false [])
  = Returns (0, [7; 9]) (Machine [] false [EvRead 8; EvRead 8]).
Proof. reflexivity. Qed.

(** ** Decoding an encoded vector *)

(** X12: decoding what was encoded.  A pair, list, set, map or string that
    is a value of its type (its elements are, a set or map is in ascending
    key order, its size fits the count field) decodes from its encoding,
    into a fresh destination, with result code [0] to the value that was
    encoded, and the bytes behind the encoding are left pending. *)
Lemma roundtrip_but_vector {T U : Type} {AT : Archive T} {AU : Archive U}
    {LT : Less T} (HT : ArchiveOk T) (HU : ArchiveOk U) (HL : LessOk T)
    (rest : list byte) (e : bool) (l : list event) :
  (forall p : T * U, valid (Archive := archive_pair) p = true ->
     exists l', deserialize_pair (fresh, fresh)
                  (Machine (serialize_pair p ++ rest) e l)
                = Returns (0, p) (Machine rest e l'))
  /\ (forall v : std_list T, valid (Archive := archive_list) v = true ->
     exists l', deserialize_list [] (Machine (serialize_list v ++ rest) e l)
                = Returns (0, v) (Machine rest e l'))
  /\ (forall s : std_set T, valid (Archive := archive_set) s = true ->
     exists l', deserialize_set [] (Machine (serialize_set s ++ rest) e l)
                = Returns (0, s) (Machine rest e l'))
  /\ (forall m : std_map T U, valid (Archive := archive_map) m = true ->
     exists l', deserialize_map [] (Machine (serialize_map m ++ rest) e l)
                = Returns (0, m) (Machine rest e l'))
  /\ (forall s : std_string, valid s = true ->
     exists l', deserialize_string [] (Machine (serialize_string s ++ rest) e l)
                = Returns (0, s) (Machine rest e l')).
Proof.
  split; [|split; [|split; [|split]]].
  - intros p. apply (roundtrip (ArchiveOk := archive_pair_ok HT HU)).
  - intros v. apply (roundtrip (ArchiveOk := archive_list_ok HT)).
  - intros s. apply (roundtrip (ArchiveOk := archive_set_ok HT HL)).
  - intros m. apply (roundtrip (ArchiveOk := archive_map_ok HT HU HL)).
  - intros s. apply (roundtrip (ArchiveOk := archive_string_ok)).
Qed.

(** C1 (the code does not do this for vectors): the vector of the one
    element [0] is a value of the type, and decoding its encoding into a
    fresh vector returns [0] with an empty destination, which is not the
    vector that was encoded. *)
Theorem vector_roundtrip_fails :
  valid (Archive := archive_vector) [0] = true
  /\ deserialize_vector (T := Z) []
       (Machine (serialize_vector (T := Z) [0]) false [])
     = Returns (0, []) (Machine [] false [EvAlloc 0; EvRead 8; EvAlloc 1; EvRead 8])
  /\ ([] : std_vector Z) <> [0].
Proof.
  split; [reflexivity | split; [reflexivity | discriminate]].
Qed.

(** ** Storage sized from a decoded length or count *)

Section VectorLog.
Context {T : Type} {AT : Archive T}.

(** The vector decoder only adds to the log. *)
Lemma deserialize_vector_fuel_log (fuel : nat) (v v' : std_vector T)
    (st st' : machine) (res : Z) :
  deserialize_vector_fuel fuel v st = Returns (res, v') st' ->
  exists evs, log st' = evs ++ log st.
Proof.
  revert v v' st st' res.
  induction fuel as [|f IH]; intros v v' st st' res H; [discriminate|].
  simpl deserialize_vector_fuel in H. rewrite bind_eq in H.
  destruct (deserialize_uint64_inv 0 st) as (r & x & st1 & Hd & Hl & He & Hc).
  rewrite Hd in H.
  destruct Hc as [(-> & Hx & Hlen & Hp) | [(-> & _) | (-> & _)]];
    try (inversion H; subst; exists [EvRead 8]; exact Hl).
  change (negb (0 =? 0)) with false in H. cbv iota in H.
  rewrite bind_eq in H. unfold emit in H.
  destruct (Z.to_nat x) as [|n].
  { inversion H; subst. exists [EvAlloc x; EvRead 8]. simpl. rewrite Hl.
    reflexivity. }
  rewrite for_loop_succ in H. change (0 =? 0) with true in H. cbv iota in H.
  destruct (deserialize_vector_fuel f _ _) as [[r acc] st2 | st2 |] eqn:Hrec;
    try discriminate.
  destruct (IH _ _ _ _ _ Hrec) as (evs & Hevs). cbn [log] in Hevs.
  assert (Hst2 : log st2 = (evs ++ [EvAlloc x; EvRead 8]) ++ log st)
    by (rewrite Hevs, Hl, <- app_assoc; reflexivity).
  destruct (negb (r =? 0)).
  { inversion H; subst. eexists. exact Hst2. }
  destruct n as [|n].
  { inversion H; subst. eexists. exact Hst2. }
  rewrite for_loop_succ in H. discriminate.
Qed.

(** A return of the vector decoder after the count was decoded comes after
    the destination was resized to that count. *)
Lemma deserialize_vector_allocates (v v' : std_vector T) (st st1 st' : machine)
    (sz res : Z) :
  deserialize_uint64 0 st = Returns (0, sz) st1 ->
  deserialize_vector v st = Returns (res, v') st' ->
  exists evs, log st' = evs ++ EvAlloc sz :: log st1.
Proof.
  intros Hc. rewrite deserialize_vector_step, (bind_returns _ _ _ _ _ Hc).
  change (negb (0 =? 0)) with false; cbv iota.
  rewrite bind_eq. unfold emit.
  destruct (Z.to_nat sz) as [|n].
  { intros H. inversion H; subst. exists []. reflexivity. }
  rewrite for_loop_succ. change (0 =? 0) with true. cbv iota.
  destruct (deserialize_vector _ _) as [[r acc] st2 | st2 |] eqn:Hrec;
    try discriminate.
  unfold deserialize_vector in Hrec.
  destruct (deserialize_vector_fuel_log _ _ _ _ _ _ Hrec) as (evs & Hevs).
  cbn [log] in Hevs.
  destruct (negb (r =? 0)).
  { intros H. inversion H; subst. exists evs. exact Hevs. }
  destruct n as [|n].
  { intros H. inversion H; subst. exists evs. exact Hevs. }
  rewrite for_loop_succ. discriminate.
Qed.
End VectorLog.

(** A return of the string decoder after a length that is not negative
    comes after the buffer of that length was allocated and as many bytes
    were asked of the source. *)
Lemma deserialize_string_allocates (out out' : std_string)
    (st st1 st' : machine) (sz res : Z) :
  deserialize_int64 0 st = Returns (0, sz) st1 ->
  0 <= sz ->
  deserialize_string out st = Returns (res, out') st' ->
  log st' = EvRead sz :: EvAlloc sz :: log st1.
Proof.
  intros Hc Hsz. unfold deserialize_string. rewrite (bind_returns _ _ _ _ _ Hc).
  change (negb (0 =? 0)) with false; cbv iota.
  destruct (Z.ltb_spec sz 0) as [H | _]; [lia|].
  rewrite bind_eq. unfold emit. rewrite bind_eq.
  destruct (force_read_inv sz
              (Machine (pending st1) (hard_error st1) (EvAlloc sz :: log st1)))
    as (num & buf & st2 & Hr & Hl & _).
  rewrite Hr. cbn [log] in Hl.
  destruct (num =? -1); [|destruct (num <? sz)];
    intros H; inversion H; subst; exact Hl.
Qed.

(** C4, what the code does instead: given the eight bytes of the count
    [1000] and nothing else, a stream that cannot hold a single element, the
    vector decoder resizes its destination to [1000] elements and only then,
    at the next read, finds the stream at its end and returns [-2]. *)
Lemma vector_allocates_unvalidated_count :
  deserialize_vector (T := Z) []
    (Machine (serialize_uint64 1000) false [])
  = Returns (-2, []) (Machine [] false [EvRead 8; EvAlloc 1000; EvRead 8]).
Proof. vm_compute. reflexivity. Qed.

(** C4, as the code has it: the string decoder rejects a negative length
    before it allocates: it returns [-3] in the state the decode of the
    length field left, with no allocation in the log.  No decoder checks a
    length or count any further.  Whenever the string decoder returns after
    a length [sz] that is not negative, with whatever code, it has allocated
    the buffer of exactly [sz] bytes and asked the source for [sz] bytes:
    there is no return that rejects [sz].  Whenever the vector decoder
    returns after the count [sz] was decoded, it has resized the destination
    to exactly [sz]. *)
Theorem sizes_checked_for_sign_only {T : Type} {AT : Archive T} :
  (forall (out : std_string) (st st1 : machine) (sz : Z),
      deserialize_int64 0 st = Returns (0, sz) st1 -> sz < 0 ->
      deserialize_string out st = Returns (-3, []) st1)
  /\ (forall (out out' : std_string) (st st1 st' : machine) (sz res : Z),
      deserialize_int64 0 st = Returns (0, sz) st1 -> 0 <= sz ->
      deserialize_string out st = Returns (res, out') st' ->
      log st' = EvRead sz :: EvAlloc sz :: log st1)
  /\ (forall (v v' : std_vector T) (st st1 st' : machine) (sz res : Z),
      deserialize_uint64 0 st = Returns (0, sz) st1 ->
      deserialize_vector v st = Returns (res, v') st' ->
      exists evs, log st' = evs ++ EvAlloc sz :: log st1).
Proof.
  split; [|split].
  - intros out st st1 sz Hc Hsz. unfold deserialize_string.
    rewrite (bind_returns _ _ _ _ _ Hc).
    change (negb (0 =? 0)) with false; cbv iota.
    destruct (Z.ltb_spec sz 0) as [_ | H]; [reflexivity | lia].
  - apply deserialize_string_allocates.
  - apply deserialize_vector_allocates.
Qed.

Lemma sizes_checked_for_sign_only_witness :
  deserialize_string [Byte.x7a]
    (Machine (serialize_int64 (-7) ++ [Byte.x68]) false [])
  = Returns (-3, []) (Machine [Byte.x68] false [EvRead 8])
  /\ [EvRead 5; EvAlloc 5; EvRead 8] = [EvRead 5; EvAlloc 5; EvRead 8]
  /\ exists evs,
       [EvRead 8; EvAlloc 3; EvRead 8] = evs ++ [EvAlloc 3; EvRead 8].
Proof.
  split; [|split].
  - apply (proj1 (sizes_checked_for_sign_only (T := Z)) [Byte.x7a]
             (Machine (serialize_int64 (-7) ++ [Byte.x68]) false [])
             (Machine [Byte.x68] false [EvRead 8]) (-7)).
    + reflexivity.
    + lia.
  - apply (proj1 (proj2 (sizes_checked_for_sign_only (T := Z))) [Byte.x7a] []
             (Machine (serialize_int64 5 ++ [Byte.x68; Byte.x69]) false [])
             (Machine [Byte.x68; Byte.x69] false [EvRead 8])
             (Machine [] false [EvRead 5; EvAlloc 5; EvRead 8]) 5 (-2)).
    + reflexivity.
    + lia.
    + reflexivity.
  - apply (proj2 (proj2 (sizes_checked_for_sign_only (T := Z))) [4] []
             (Machine (serialize_uint64 3 ++ [Byte.x01; Byte.x02]) false [])
             (Machine [Byte.x01; Byte.x02] false [EvRead 8])
             (Machine [] false [EvRead 8; EvAlloc 3; EvRead 8]) 3 (-2)).
    + reflexivity.
    + reflexivity.
Defined.

(** * More of what the codecs do *)

(** ** Reads that come up short *)

Lemma force_read_short (n : Z) (st : machine) :
  Z.of_nat (length (pending st)) < n ->
  force_read n st
  = Returns (if hard_error st then -1 else Z.of_nat (length (pending st)),
             if hard_error st then [] else pending st)
            (Machine [] (hard_error st) (EvRead n :: log st)).
Proof.
  intros H. unfold force_read.
  destruct (Z.leb_spec n 0) as [H0 | _]; [lia|].
  destruct (Z.leb_spec n (Z.of_nat (length (pending st)))) as [H1 | _]; [lia|].
  destruct (hard_error st); reflexivity.
Qed.

Lemma deserialize_uint64_short (d : Z) (st : machine) :
  (length (pending st) < 8)%nat ->
  deserialize_uint64 d st
  = Returns (if hard_error st then -1 else -2, d)
            (Machine [] (hard_error st) (EvRead 8 :: log st)).
Proof.
  intros H. unfold deserialize_uint64.
  rewrite bind_eq, force_read_short by lia.
  destruct (hard_error st); [reflexivity|].
  destruct (Z.eqb_spec (Z.of_nat (length (pending st))) (-1)) as [H1 | _]; [lia|].
  destruct (Z.ltb_spec (Z.of_nat (length (pending st))) 8) as [_ | H2]; [|lia].
  reflexivity.
Qed.

Lemma deserialize_int64_short (d : Z) (st : machine) :
  (length (pending st) < 8)%nat ->
  deserialize_int64 d st
  = Returns (if hard_error st then -1 else -2, d)
            (Machine [] (hard_error st) (EvRead 8 :: log st)).
Proof.
  intros H. unfold deserialize_int64.
  rewrite bind_eq, force_read_short by lia.
  destruct (hard_error st); [reflexivity|].
  destruct (Z.eqb_spec (Z.of_nat (length (pending st))) (-1)) as [H1 | _]; [lia|].
  destruct (Z.ltb_spec (Z.of_nat (length (pending st))) 8) as [_ | H2]; [|lia].
  reflexivity.
Qed.

(** A length decode returns, with one of three codes; on success the eight
    bytes that are gone are the encoding of the length. *)
Lemma deserialize_int64_inv (d : Z) (st : machine) :
  exists res x st',
    deserialize_int64 d st = Returns (res, x) st'
    /\ log st' = EvRead 8 :: log st
    /\ hard_error st' = hard_error st
    /\ ((res = 0 /\ - 2 ^ 63 <= x < 2 ^ 63
         /\ pending st = serialize_int64 x ++ pending st')
        \/ (res = -1 /\ x = d) \/ (res = -2 /\ x = d)).
Proof.
  unfold deserialize_int64. rewrite bind_eq.
  destruct (force_read_inv 8 st) as (num & buf & st' & Hr & Hl & He & Hlen & Hc).
  rewrite Hr.
  destruct Hc as [(Hn & _ & Hb & Hp) | [(Hn & _) | (Hlt & Hp & Hc)]]; [| lia |].
  - subst num. change (8 =? -1) with false. change (8 <? 8) with false.
    cbv iota. do 3 eexists. split; [reflexivity|].
    split; [exact Hl | split; [exact He |]]. left.
    assert (Hb8 : length buf = 8%nat) by lia.
    pose proof (le_combine_bound buf) as Hbd. rewrite Hb8 in Hbd.
    change (8 * Z.of_nat 8) with 64 in Hbd.
    split; [reflexivity|]. split.
    + unfold to_int64. destruct (Z.ltb_spec (le_combine buf) (2 ^ 63)); lia.
    + rewrite Hp at 1. f_equal. symmetry. unfold serialize_int64.
      apply le_combine_inj; [rewrite length_le_split; symmetry; exact Hb8|].
      rewrite le_combine_split. change (Z.of_nat 8 * 8) with 64.
      unfold to_int64. destruct (Z.ltb_spec (le_combine buf) (2 ^ 63)).
      * apply Z.mod_small. lia.
      * symmetry. apply (Z.mod_unique_pos _ _ (- 1)); lia.
  - destruct Hc as [(Hh & Hn) | (Hh & Hn)]; subst num.
    + change (-1 =? -1) with true. cbv iota.
      do 3 eexists. split; [reflexivity|].
      split; [exact Hl | split; [exact He |]]. right; left. auto.
    + destruct (Z.of_nat (length (pending st)) =? -1) eqn:E1;
        [apply Z.eqb_eq in E1; lia|].
      replace (Z.of_nat (length (pending st)) <? 8) with true
        by (symmetry; apply Z.ltb_lt; lia).
      do 3 eexists. split; [reflexivity|].
      split; [exact Hl | split; [exact He |]]. right; right. auto.
Qed.

(** ** Strings: the decoder inverts the encoder both ways *)

(** X1: whenever the string decoder succeeds, the bytes it consumed are the
    encoding of the string it returns: the stream was that encoding followed
    by what is still pending.  The length of the string fits an [int64_t]. *)
Theorem string_decode_is_encoding (d s : std_string) (st st' : machine) :
  deserialize_string d st = Returns (0, s) st' ->
  pending st = serialize_string s ++ pending st'
  /\ Z.of_nat (length s) < 2 ^ 63
  /\ hard_error st' = hard_error st.
Proof.
  unfold deserialize_string. rewrite bind_eq.
  destruct (deserialize_int64_inv 0 st) as (res & x & st1 & Hd & _ & He1 & Hc).
  rewrite Hd.
  destruct Hc as [(-> & Hx & Hp) | [(-> & _) | (-> & _)]];
    try (intros H; inversion H; fail).
  change (negb (0 =? 0)) with false. cbv iota.
  destruct (Z.ltb_spec x 0) as [Hneg | Hpos]; [intros H; inversion H|].
  rewrite bind_eq. unfold emit. rewrite bind_eq.
  destruct (force_read_inv x
              (Machine (pending st1) (hard_error st1) (EvAlloc x :: log st1)))
    as (num & buf & st2 & Hr & _ & He2 & _ & Hcases).
  rewrite Hr. cbn [pending hard_error] in *.
  destruct Hcases as [(-> & Hx0 & Hb & Hp2) | [(Hx0 & -> & -> & Hp2)
                                               | (Hlt & _ & Hcases)]].
  - destruct (Z.eqb_spec x (-1)) as [H1 | _]; [lia|].
    rewrite Z.ltb_irrefl. intros H. inversion H; subst s st'. clear H.
    unfold filled. rewrite skipn_all2, app_nil_r by (rewrite repeat_length; lia).
    split; [|split; [lia | congruence]].
    unfold serialize_string. rewrite Hb, <- app_assoc, <- Hp2. exact Hp.
  - assert (x = 0) as -> by lia.
    simpl. intros H. inversion H; subst s st'. clear H.
    split; [|split; [simpl; lia | congruence]].
    rewrite Hp2. exact Hp.
  - destruct Hcases as [(_ & ->) | (_ & ->)].
    + change (-1 =? -1) with true. cbv iota. intros H. inversion H.
    + destruct (Z.eqb_spec (Z.of_nat (length (pending st1))) (-1)) as [H1 | _];
        [lia|].
      destruct (Z.ltb_spec (Z.of_nat (length (pending st1))) x) as [_ | H2];
        [|lia].
      intros H. inversion H.
Qed.

Lemma string_decode_is_encoding_witness :
  [Byte.x02; Byte.x00; Byte.x00; Byte.x00; Byte.x00; Byte.x00; Byte.x00;
   Byte.x00; Byte.x68; Byte.x69; Byte.xff]
  = serialize_string [Byte.x68; Byte.x69] ++ [Byte.xff]
  /\ Z.of_nat 2 < 2 ^ 63
  /\ true = true.
Proof.
  apply (string_decode_is_encoding [Byte.x7a] [Byte.x68; Byte.x69]
           (Machine [Byte.x02; Byte.x00; Byte.x00; Byte.x00; Byte.x00; Byte.x00;
                     Byte.x00; Byte.x00; Byte.x68; Byte.x69; Byte.xff] true [])
           (Machine [Byte.xff] true [EvRead 2; EvAlloc 2; EvRead 8])).
  reflexivity.
Defined.

(** X2: an encoded string cut short anywhere, inside the length field or
    inside the payload, never decodes: the decoder returns [-2] when the
    stream just ends there and [-1] when the source fails there, with the
    destination empty and the stream used up. *)
Theorem string_truncation_detected (s d : std_string) (n : nat) (e : bool)
    (l : list event) :
  Z.of_nat (length s) < 2 ^ 63 ->
  (n < length (serialize_string s))%nat ->
  exists l',
    deserialize_string d (Machine (firstn n (serialize_string s)) e l)
    = Returns (if e then -1 else -2, []) (Machine [] e l').
Proof.
  intros Hs Hn. unfold serialize_string in *.
  rewrite length_app in Hn. unfold serialize_int64 in Hn.
  rewrite length_le_split in Hn.
  unfold deserialize_string. rewrite bind_eq.
  destruct (Nat.lt_ge_cases n 8) as [Hshort | Hlong].
  - rewrite deserialize_int64_short
      by (cbn [pending]; rewrite length_firstn; lia).
    cbn [hard_error log]. destruct e; eexists; reflexivity.
  - rewrite firstn_app. unfold serialize_int64 at 1 2.
    rewrite length_le_split, firstn_all2 by (rewrite length_le_split; lia).
    fold (serialize_int64 (Z.of_nat (length s))).
    rewrite deserialize_int64_serialize by lia.
    change (negb (0 =? 0)) with false. cbv iota.
    destruct (Z.ltb_spec (Z.of_nat (length s)) 0) as [H | _]; [lia|].
    rewrite bind_eq. unfold emit. cbn [pending hard_error log].
    rewrite bind_eq, force_read_short
      by (cbn [pending]; rewrite length_firstn; lia).
    cbn [pending hard_error log]. destruct e.
    + eexists. reflexivity.
    + destruct (Z.eqb_spec (Z.of_nat (length (firstn (n - 8) s))) (-1))
        as [H | _]; [lia|].
      destruct (Z.ltb_spec (Z.of_nat (length (firstn (n - 8) s)))
                           (Z.of_nat (length s))) as [_ | H];
        [|rewrite length_firstn in H; lia].
      eexists. reflexivity.
Qed.

Lemma string_truncation_detected_witness :
  exists l',
    deserialize_string [Byte.x7a]
      (Machine (firstn 9 (serialize_string [Byte.x68; Byte.x69])) false [])
    = Returns (-2, []) (Machine [] false l').
Proof.
  apply (string_truncation_detected [Byte.x68; Byte.x69] [Byte.x7a] 9 false []).
  - simpl. lia.
  - simpl. lia.
Defined.

(** ** Lists: what ends up in the destination *)

(** X3: decoding an encoded list into a destination that already holds [d]
    succeeds and leaves [d] followed by the encoded elements, with the bytes
    behind the encoding still pending. *)
Theorem list_decode_appends {T : Type} {AT : Archive T} (HT : ArchiveOk T)
    (d xs : std_list T) (rest : list byte) (e : bool) (l : list event) :
  Z.of_nat (length xs) <= uint64_max ->
  forallb valid xs = true ->
  exists l',
    deserialize_list d (Machine (serialize_list xs ++ rest) e l)
    = Returns (0, d ++ xs) (Machine rest e l').
Proof.
  intros Hlen Hall.
  unfold deserialize_list, serialize_list, serialize_elements.
  rewrite bind_eq, <- app_assoc, deserialize_uint64_serialize by lia.
  change (negb (0 =? 0)) with false. cbv iota. rewrite Nat2Z.id.
  assert (Hbody : forall (i : Z) (acc : std_list T) x st st',
             deserialize fresh st = Returns (0, x) st' ->
             ('(res, x) <- deserialize fresh ;; ret (res, acc ++ [x])) st
             = Returns (0, acc ++ [x]) st').
  { intros i acc x st st' H. rewrite bind_eq, H. reflexivity. }
  destruct (for_loop_decode (fun (v : std_list T) x => v ++ [x])
              (fun (_ : Z) (v : std_list T) =>
                 '(res, x) <- deserialize fresh ;; ret (res, v ++ [x]))
              Hbody xs 0 d rest e (EvRead 8 :: l) Hall) as (l' & Hrun).
  exists l'. rewrite fold_push_back in Hrun. exact Hrun.
Qed.

Lemma list_decode_appends_witness :
  exists l',
    deserialize_list (T := Z) [7; 8]
      (Machine (serialize_list (T := Z) [1; 2; 3] ++ [Byte.xff]) false [])
    = Returns (0, [7; 8] ++ [1; 2; 3]) (Machine [Byte.xff] false l').
Proof.
  apply (list_decode_appends archive_uint64_ok [7; 8] [1; 2; 3]).
  - unfold uint64_max. simpl. lia.
  - reflexivity.
Defined.

(** The loop of the list decoder pushes one element per iteration it
    starts, also in the iteration whose decode fails. *)
Lemma list_loop_pushes {T : Type} {AT : Archive T} (n : nat) (i : Z)
    (v v' : std_list T) (st st' : machine) (res : Z) :
  for_loop n i
    (fun (_ : Z) (v : std_list T) =>
       '(res, x) <- deserialize fresh ;; ret (res, v ++ [x])) v st
  = Returns (res, v') st' ->
  exists l, v' = v ++ l
            /\ (length l <= n)%nat
            /\ (res = 0 -> length l = n)
            /\ (res <> 0 -> (0 < length l)%nat).
Proof.
  revert i v st. induction n as [|n IH]; intros i v st H.
  - inversion H; subst. exists []. rewrite app_nil_r.
    repeat split; auto; try (intros Hne; contradiction).
  - rewrite for_loop_succ, bind_eq in H.
    destruct (deserialize fresh st) as [[r x] s1 | s1 |]; try discriminate.
    unfold ret in H.
    destruct (Z.eqb_spec r 0) as [-> | Hr]; cbn [negb] in H.
    + destruct (IH _ _ _ H) as (l & -> & Hle & Hz & Hnz).
      exists (x :: l). rewrite <- app_assoc. simpl.
      split; [reflexivity|]. split; [lia|]. split; [|lia].
      intros H0. rewrite (Hz H0). reflexivity.
    + inversion H; subst. exists [x]. simpl.
      split; [reflexivity|]. split; [lia|]. split; [|lia].
      intros H0. contradiction.
Qed.

(** X4: once the count [sz] has been decoded, the list decoder leaves the
    old contents of the destination followed by new elements: exactly [sz]
    of them when it succeeds, and at least one and at most [sz] when it
    fails, the last one being the element whose decode failed. *)
Theorem list_decode_count {T : Type} {AT : Archive T} (v v' : std_list T)
    (st st1 st' : machine) (sz res : Z) :
  deserialize_uint64 0 st = Returns (0, sz) st1 ->
  deserialize_list v st = Returns (res, v') st' ->
  exists l, v' = v ++ l
            /\ Z.of_nat (length l) <= sz
            /\ (res = 0 -> Z.of_nat (length l) = sz)
            /\ (res <> 0 -> 0 < Z.of_nat (length l)).
Proof.
  intros Hc. unfold deserialize_list.
  destruct (deserialize_uint64_inv 0 st) as (r & x & s1 & Hd & _ & _ & Hcases).
  rewrite Hc in Hd. inversion Hd; subst r x s1. clear Hd.
  destruct Hcases as [(_ & Hsz & _) | [(H & _) | (H & _)]]; try discriminate.
  rewrite (bind_returns _ _ _ _ _ Hc).
  change (negb (0 =? 0)) with false. cbv iota. intros H.
  destruct (list_loop_pushes _ _ _ _ _ _ _ H) as (l & -> & Hle & Hz & Hnz).
  exists l. split; [reflexivity|]. split; [lia|]. split.
  - intros H0. rewrite (Hz H0). lia.
  - intros H0. specialize (Hnz H0). lia.
Qed.

Lemma list_decode_count_witness :
  exists l, [9; 5; 0] = [9] ++ l
            /\ Z.of_nat (length l) <= 3
            /\ (-2 = 0 -> Z.of_nat (length l) = 3)
            /\ (-2 <> 0 -> 0 < Z.of_nat (length l)).
Proof.
  apply (list_decode_count (T := Z) [9] [9; 5; 0]
           (Machine (serialize_uint64 3 ++ serialize_uint64 5
                     ++ [Byte.x01; Byte.x02]) false [])
           (Machine (serialize_uint64 5 ++ [Byte.x01; Byte.x02]) false [EvRead 8])
           (Machine [] false [EvRead 8; EvRead 8; EvRead 8])).
  - reflexivity.
  - reflexivity.
Defined.

(** ** Sets and maps: the container a decode leaves *)

(** An invariant of the loop variables that counts the iterations. *)
Lemma for_loop_inv_count {S : Type} (I : nat -> S -> Prop)
    (body : Z -> S -> M (Z * S)) :
  (forall k i acc st r acc' st',
      I k acc -> body i acc st = Returns (r, acc') st' ->
      I (Datatypes.S k) acc') ->
  forall n k i acc st r acc' st',
    I k acc -> for_loop n i body acc st = Returns (r, acc') st' ->
    exists j, (j <= n)%nat /\ I (k + j)%nat acc'.
Proof.
  intros Hbody. induction n as [|n IH]; intros k i acc st r acc' st' HI H.
  - inversion H; subst. exists O. rewrite Nat.add_0_r. auto.
  - rewrite for_loop_succ in H.
    destruct (body i acc st) as [[r1 acc1] s1 | s1 |] eqn:Hb; try discriminate.
    pose proof (Hbody _ _ _ _ _ _ _ HI Hb) as HI1.
    destruct (negb (r1 =? 0)).
    + inversion H; subst. exists 1%nat. rewrite Nat.add_1_r. split; [lia | exact HI1].
    + destruct (IH _ _ _ _ _ _ _ HI1 H) as (j & Hj & HIj).
      exists (Datatypes.S j). split; [lia|].
      replace (k + Datatypes.S j)%nat with (Datatypes.S k + j)%nat by lia.
      exact HIj.
Qed.

Section OrderedFacts.
Context {K E : Type} {LK : Less K} {LKOk : LessOk K} (key : E -> K).

Lemma insert_unique_length (m : list E) (x : E) :
  (length (fst (insert_unique key m x)) <= Datatypes.S (length m))%nat.
Proof.
  induction m as [|y m IH]; simpl; [lia|].
  destruct (ltb (key x) (key y)); [simpl; lia|].
  destruct (ltb (key y) (key x)); [|simpl; lia].
  destruct (insert_unique key m x) as [r i]. simpl in *. lia.
Qed.

Lemma lookup_in (k : K) (m : list E) (p : E) :
  lookup key k m = Some p -> In p m /\ key p = k.
Proof.
  unfold lookup. intros H. apply find_some in H. destruct H as [Hin He].
  split; [exact Hin|]. apply (equivalent_eq (LKOk := LKOk)). exact He.
Qed.

Lemma sorted_lookup_self (m : list E) (p : E) :
  sorted key m -> In p m -> lookup key (key p) m = Some p.
Proof.
  induction m as [|y m IH]; intros Hs Hin; [contradiction|].
  inversion Hs as [|? ? Hm Hy]; subst. unfold lookup. cbn [find].
  destruct Hin as [-> | Hin].
  - rewrite (proj2 (equivalent_eq (key p) (key p)) eq_refl). reflexivity.
  - destruct (equivalent (key y) (key p)) eqn:He.
    + apply (equivalent_eq (LKOk := LKOk)) in He.
      rewrite Forall_forall in Hy. specialize (Hy p Hin). unfold before in Hy.
      rewrite He, ltb_irrefl in Hy. discriminate.
    + exact (IH Hm Hin).
Qed.

(** A container in order is determined by what is found under each key. *)
Lemma sorted_lookup_ext (a b : list E) :
  sorted key a -> sorted key b ->
  (forall k, lookup key k a = lookup key k b) -> a = b.
Proof.
  revert b. induction a as [|x a IH]; intros b Ha Hb Hext.
  - destruct b as [|y b]; [reflexivity|].
    specialize (Hext (key y)).
    rewrite (sorted_lookup_self (y :: b) y Hb (or_introl eq_refl)) in Hext.
    discriminate.
  - destruct b as [|y b].
    { specialize (Hext (key x)).
      rewrite (sorted_lookup_self (x :: a) x Ha (or_introl eq_refl)) in Hext.
      discriminate. }
    inversion Ha as [|? ? Ha' Hxa]; subst.
    inversion Hb as [|? ? Hb' Hyb]; subst.
    assert (Hxy : x = y).
    { pose proof (Hext (key x)) as Hx. pose proof (Hext (key y)) as Hy.
      rewrite (sorted_lookup_self (x :: a) x Ha (or_introl eq_refl)) in Hx.
      rewrite (sorted_lookup_self (y :: b) y Hb (or_introl eq_refl)) in Hy.
      symmetry in Hx. apply lookup_in in Hx, Hy.
      destruct Hx as [[Hx | Hx] _]; [symmetry; exact Hx|].
      destruct Hy as [[Hy | Hy] _]; [exact Hy|].
      rewrite Forall_forall in Hxa, Hyb.
      pose proof (Hxa y Hy) as H1. pose proof (Hyb x Hx) as H2.
      unfold before in H1, H2. rewrite (ltb_asym _ _ H1) in H2. discriminate. }
    subst y. f_equal. apply IH; [exact Ha' | exact Hb' |].
    intros k. specialize (Hext k). unfold lookup in *. cbn [find] in Hext.
    destruct (equivalent (key x) k) eqn:He; [|exact Hext].
    apply (equivalent_eq (LKOk := LKOk)) in He. subst k.
    pose proof (lookup_behind key x a Hxa) as H1.
    pose proof (lookup_behind key x b Hyb) as H2.
    unfold lookup in H1, H2. rewrite H1, H2. reflexivity.
Qed.

(** The container the insertions build depends only on which element is
    the first with each key. *)
Lemma fold_unhinted_ext (xs1 xs2 : list E) :
  (forall k, find (fun y => equivalent (key y) k) xs1
             = find (fun y => equivalent (key y) k) xs2) ->
  fst (fold_left (unhinted key) xs1 ([], O))
  = fst (fold_left (unhinted key) xs2 ([], O)).
Proof.
  intros H. apply sorted_lookup_ext.
  - apply fold_unhinted_sorted. constructor.
  - apply fold_unhinted_sorted. constructor.
  - intros k. rewrite !lookup_fold_unhinted by constructor. apply H.
Qed.

Lemma sorted_keys_nodup (m : list E) : sorted key m -> NoDup m.
Proof.
  induction m as [|y m IH]; intros Hs; [constructor|].
  inversion Hs as [|? ? Hm Hy]; subst. constructor; [|exact (IH Hm)].
  intros Hin. rewrite Forall_forall in Hy. specialize (Hy y Hin).
  unfold before in Hy. rewrite ltb_irrefl in Hy. discriminate.
Qed.

Lemma find_nodup_keys (l : list E) (p : E) :
  NoDup (map key l) -> In p l ->
  find (fun y => equivalent (key y) (key p)) l = Some p.
Proof.
  induction l as [|y l IH]; intros Hnd Hin; [contradiction|].
  simpl in Hnd. inversion Hnd as [|? ? Hy Hl]; subst. cbn [find].
  destruct Hin as [-> | Hin].
  - rewrite (proj2 (equivalent_eq (key p) (key p)) eq_refl). reflexivity.
  - destruct (equivalent (key y) (key p)) eqn:He; [|exact (IH Hl Hin)].
    apply (equivalent_eq (LKOk := LKOk)) in He. exfalso. apply Hy.
    rewrite He. apply in_map. exact Hin.
Qed.
End OrderedFacts.

Section OrderedDecode.
Context {K V : Type} {AK : Archive K} {AV : Archive V} {LK : Less K}
        {LKOk : LessOk K}.

Lemma deserialize_map_sorted (m m' : std_map K V) (st st' : machine) (res : Z) :
  deserialize_map m st = Returns (res, m') st' ->
  sorted fst m'
  /\ forall sz st1, deserialize_uint64 0 st = Returns (0, sz) st1 ->
                    Z.of_nat (length m') <= sz.
Proof.
  unfold deserialize_map. rewrite bind_eq.
  destruct (deserialize_uint64_inv 0 st) as (r & sz & s1 & Hd & _ & _ & Hc).
  rewrite Hd.
  destruct Hc as [(-> & Hsz & _) | [(-> & _) | (-> & _)]];
    try (intros H; inversion H; subst; split; [constructor|];
         intros sz' st1' H'; inversion H'; fail).
  change (negb (0 =? 0)) with false. cbv iota. rewrite bind_eq.
  destruct (for_loop _ _ _ _ _) as [[r acc] s2 | s2 |] eqn:Hloop;
    try discriminate.
  intros H. inversion H; subst. clear H.
  apply (for_loop_inv_count
           (fun k (acc : std_map K V * nat) =>
              sorted fst (fst acc) /\ (length (fst acc) <= k)%nat))
    with (k := O) in Hloop.
  - destruct Hloop as (j & Hj & Hs & Hl). split; [exact Hs|].
    intros sz' st1' H'. inversion H'; subst. simpl in Hl.
    apply Z.le_trans with (Z.of_nat j); [|lia].
    apply (proj1 (Nat2Z.inj_le _ _)). exact Hl.
  - intros k i [m0 pos] s r0 acc' s' [Hs Hl] Hb. rewrite bind_eq in Hb.
    destruct (deserialize_pair (fresh, fresh) s) as [[r1 x] s3 | s3 |];
      try discriminate.
    cbn [fst] in *.
    destruct (negb (r1 =? 0)); inversion Hb; subst; cbn [fst].
    + split; [exact Hs | apply Nat.le_trans with k; [exact Hl | lia]].
    + rewrite (insert_hint_unique fst m0 pos x Hs). split.
      * apply insert_unique_sorted. exact Hs.
      * eapply Nat.le_trans; [apply insert_unique_length|].
        apply (proj1 (Nat.succ_le_mono _ _)). exact Hl.
  - split; [constructor | apply Nat.le_refl].
Qed.

Lemma deserialize_set_sorted (out out' : std_set K) (st st' : machine) (res : Z) :
  deserialize_set out st = Returns (res, out') st' ->
  sorted (fun x => x) out'
  /\ forall sz st1, deserialize_uint64 0 st = Returns (0, sz) st1 ->
                    Z.of_nat (length out') <= sz.
Proof.
  unfold deserialize_set. rewrite bind_eq.
  destruct (deserialize_uint64_inv 0 st) as (r & sz & s1 & Hd & _ & _ & Hc).
  rewrite Hd.
  destruct Hc as [(-> & Hsz & _) | [(-> & _) | (-> & _)]];
    try (intros H; inversion H; subst; split; [constructor|];
         intros sz' st1' H'; inversion H'; fail).
  change (negb (0 =? 0)) with false. cbv iota. rewrite bind_eq.
  destruct (for_loop _ _ _ _ _) as [[r acc] s2 | s2 |] eqn:Hloop;
    try discriminate.
  intros H. inversion H; subst. clear H.
  apply (for_loop_inv_count
           (fun k (acc : std_set K * nat) =>
              sorted (fun x => x) (fst acc) /\ (length (fst acc) <= k)%nat))
    with (k := O) in Hloop.
  - destruct Hloop as (j & Hj & Hs & Hl). split; [exact Hs|].
    intros sz' st1' H'. inversion H'; subst. simpl in Hl.
    apply Z.le_trans with (Z.of_nat j); [|lia].
    apply (proj1 (Nat2Z.inj_le _ _)). exact Hl.
  - intros k i [m0 pos] s r0 acc' s' [Hs Hl] Hb. rewrite bind_eq in Hb.
    destruct (deserialize fresh s) as [[r1 x] s3 | s3 |];
      try discriminate.
    cbn [fst] in *.
    destruct (negb (r1 =? 0)); inversion Hb; subst; cbn [fst].
    + split; [exact Hs | apply Nat.le_trans with k; [exact Hl | lia]].
    + rewrite (insert_hint_unique (fun x => x) m0 pos x Hs). split.
      * apply insert_unique_sorted. exact Hs.
      * eapply Nat.le_trans; [apply insert_unique_length|].
        apply (proj1 (Nat.succ_le_mono _ _)). exact Hl.
  - split; [constructor | apply Nat.le_refl].
Qed.
End OrderedDecode.

(** X5: whatever the stream holds and whatever the destination held, the
    container a map or set decode leaves, on success and on failure alike,
    is in strictly ascending key order (so its keys are distinct) and has at
    most as many elements as the count that was decoded. *)
Theorem ordered_decode_invariant {K V : Type} {AK : Archive K} {AV : Archive V}
    {LK : Less K} (LKOk : LessOk K) (st st' : machine) (res : Z) :
  (forall m m' : std_map K V,
      deserialize_map m st = Returns (res, m') st' ->
      sorted fst m'
      /\ forall sz st1, deserialize_uint64 0 st = Returns (0, sz) st1 ->
                        Z.of_nat (length m') <= sz)
  /\ (forall out out' : std_set K,
      deserialize_set out st = Returns (res, out') st' ->
      sorted (fun x => x) out'
      /\ forall sz st1, deserialize_uint64 0 st = Returns (0, sz) st1 ->
                        Z.of_nat (length out') <= sz).
Proof.
  split.
  - intros m m'. apply deserialize_map_sorted.
  - intros out out'. apply deserialize_set_sorted.
Qed.

Lemma ordered_decode_invariant_witness :
  (sorted fst [(1, [Byte.x61]); (2, [Byte.x62])]
   /\ forall sz st1,
        deserialize_uint64 0
          (Machine (serialize_elements (AT := archive_pair)
                      [(2, [Byte.x62]); (1, [Byte.x61]); (2, [Byte.x7a])]
                    ++ [Byte.xff]) false [])
        = Returns (0, sz) st1 ->
        Z.of_nat (length [(1, [Byte.x61]); (2, [Byte.x62])]) <= sz)
  /\ (sorted (fun x => x) [5]
      /\ forall sz st1,
           deserialize_uint64 0
             (Machine (serialize_uint64 2 ++ serialize_uint64 5) true [])
           = Returns (0, sz) st1 ->
           Z.of_nat (length [5]) <= sz).
Proof.
  split.
  - apply (proj1 (ordered_decode_invariant (K := Z) (V := std_string)
                    less_uint64_ok
                    (Machine (serialize_elements (AT := archive_pair)
                                [(2, [Byte.x62]); (1, [Byte.x61]); (2, [Byte.x7a])]
                              ++ [Byte.xff]) false [])
                    (Machine [Byte.xff] false
                       [EvRead 1; EvAlloc 1; EvRead 8; EvRead 8;
                        EvRead 1; EvAlloc 1; EvRead 8; EvRead 8;
                        EvRead 1; EvAlloc 1; EvRead 8; EvRead 8; EvRead 8]) 0)
             []).
    reflexivity.
  - apply (proj2 (ordered_decode_invariant (K := Z) (V := std_string)
                    less_uint64_ok
                    (Machine (serialize_uint64 2 ++ serialize_uint64 5) true [])
                    (Machine [] true [EvRead 8; EvRead 8; EvRead 8]) (-1))
             [9]).
    reflexivity.
Defined.


(** ** Sets and maps: the order of the stream *)

Section StreamOrder.
Context {K E : Type} {LK : Less K} {LKOk : LessOk K} (key : E -> K).

Lemma find_perm_nodup (l1 l2 : list E) (k : K) :
  NoDup (map key l1) -> Permutation l1 l2 ->
  find (fun y => equivalent (key y) k) l1
  = find (fun y => equivalent (key y) k) l2.
Proof.
  intros Hnd Hp.
  assert (Hnd2 : NoDup (map key l2))
    by (eapply Permutation_NoDup; [apply Permutation_map; exact Hp | exact Hnd]).
  destruct (find _ l1) as [p|] eqn:H1.
  - apply find_some in H1. destruct H1 as [Hin He].
    apply (equivalent_eq (LKOk := LKOk)) in He. subst k. symmetry.
    apply find_nodup_keys; [exact Hnd2|].
    eapply Permutation_in; eassumption.
  - destruct (find _ l2) as [p|] eqn:H2; [|reflexivity].
    apply find_some in H2. destruct H2 as [Hin He].
    apply Permutation_sym in Hp.
    pose proof (find_none _ _ H1 p (Permutation_in _ Hp Hin)) as Hn.
    simpl in Hn. rewrite He in Hn. discriminate.
Qed.

(** With distinct keys in the stream, the container holds exactly the
    elements of the stream. *)
Lemma fold_unhinted_members (xs : list E) (p : E) :
  NoDup (map key xs) ->
  (In p (fst (fold_left (unhinted key) xs ([], O))) <-> In p xs).
Proof.
  intros Hnd.
  assert (Hs : sorted key (fst (fold_left (unhinted key) xs ([], O))))
    by (apply fold_unhinted_sorted; constructor).
  split; intros Hin.
  - pose proof (sorted_lookup_self key _ p Hs Hin) as Hl.
    rewrite lookup_fold_unhinted in Hl by constructor. simpl in Hl.
    apply find_some in Hl. tauto.
  - pose proof (find_nodup_keys key xs p Hnd Hin) as Hf.
    assert (Hl : lookup key (key p) (fst (fold_left (unhinted key) xs ([], O)))
                 = Some p)
      by (rewrite lookup_fold_unhinted by constructor; exact Hf).
    apply lookup_in in Hl. tauto.
Qed.
End StreamOrder.

Lemma find_self_in {T : Type} {LT : Less T} {LTOk : LessOk T} (k : T)
    (l : list T) :
  In k l -> find (fun y => equivalent y k) l = Some k.
Proof.
  induction l as [|y l IH]; intros Hin; [contradiction|]. cbn [find].
  destruct (equivalent y k) eqn:He.
  - apply (equivalent_eq (LKOk := LTOk)) in He. subst y. reflexivity.
  - destruct Hin as [-> | Hin]; [|exact (IH Hin)].
    rewrite (proj2 (equivalent_eq k k) eq_refl) in He. discriminate.
Qed.

Lemma find_self_members {T : Type} {LT : Less T} {LTOk : LessOk T}
    (l1 l2 : list T) (k : T) :
  (forall x, In x l1 <-> In x l2) ->
  find (fun y => equivalent y k) l1 = find (fun y => equivalent y k) l2.
Proof.
  intros Hm.
  assert (Hone : forall a b : list T,
             (forall x, In x a -> In x b) ->
             forall y, find (fun y => equivalent y k) a = Some y ->
                       find (fun y => equivalent y k) b = Some y).
  { intros a b Hab y Hf. apply find_some in Hf. destruct Hf as [Hin He].
    apply (equivalent_eq (LKOk := LTOk)) in He. subst y.
    apply find_self_in. apply Hab. exact Hin. }
  destruct (find _ l1) as [y|] eqn:H1.
  - symmetry. apply (Hone l1 l2); [intros x; apply Hm | exact H1].
  - destruct (find _ l2) as [y|] eqn:H2; [|reflexivity].
    rewrite (Hone l2 l1 (fun x => proj2 (Hm x)) y H2) in H1. discriminate.
Qed.

(** X6: two set streams with the same elements, in any order and with any
    repetitions, decode to the same set; its members are the elements of
    the stream. *)
Theorem set_decode_order_independent {T : Type} {AT : Archive T} {LT : Less T}
    (HT : ArchiveOk T) (HL : LessOk T) (elems1 elems2 : list T)
    (d1 d2 : std_set T) (rest : list byte) (e : bool) (l : list event) :
  Z.of_nat (length elems1) <= uint64_max ->
  Z.of_nat (length elems2) <= uint64_max ->
  forallb valid elems1 = true ->
  forallb valid elems2 = true ->
  (forall x, In x elems1 <-> In x elems2) ->
  exists s l1 l2,
    deserialize_set d1 (Machine (serialize_elements elems1 ++ rest) e l)
    = Returns (0, s) (Machine rest e l1)
    /\ deserialize_set d2 (Machine (serialize_elements elems2 ++ rest) e l)
       = Returns (0, s) (Machine rest e l2)
    /\ forall x, In x s <-> In x elems1.
Proof.
  intros Hl1 Hl2 Hv1 Hv2 Hm.
  destruct (deserialize_set_elements HT elems1 d1 rest e l Hl1 Hv1) as (l1 & H1).
  destruct (deserialize_set_elements HT elems2 d2 rest e l Hl2 Hv2) as (l2 & H2).
  rewrite fold_hinted_unhinted in H1, H2 by constructor.
  exists (fst (fold_left (unhinted (fun x => x)) elems1 ([], O))), l1, l2.
  split; [exact H1|]. split.
  - rewrite H2. f_equal. f_equal. symmetry.
    apply (fold_unhinted_ext (fun x : T => x)).
    intros k. apply find_self_members. exact Hm.
  - intros x.
    assert (Hs : sorted (fun x => x)
                   (fst (fold_left (unhinted (fun x : T => x)) elems1 ([], O))))
      by (apply fold_unhinted_sorted; constructor).
    split; intros Hin.
    + pose proof (sorted_lookup_self (fun x : T => x) _ x Hs Hin) as Hk.
      rewrite lookup_fold_unhinted in Hk by constructor. simpl in Hk.
      apply find_some in Hk. tauto.
    + assert (Hk : lookup (fun x : T => x) x
                     (fst (fold_left (unhinted (fun x : T => x)) elems1 ([], O)))
                   = Some x).
      { rewrite lookup_fold_unhinted by constructor. simpl.
        apply find_self_in. exact Hin. }
      apply lookup_in in Hk. tauto.
Qed.

Lemma set_decode_order_independent_witness :
  exists s l1 l2,
    deserialize_set (T := Z) [9]
      (Machine (serialize_elements [3; 1; 2; 3] ++ [Byte.xff]) false [])
    = Returns (0, s) (Machine [Byte.xff] false l1)
    /\ deserialize_set (T := Z) []
         (Machine (serialize_elements [2; 2; 1; 3; 1] ++ [Byte.xff]) false [])
       = Returns (0, s) (Machine [Byte.xff] false l2)
    /\ forall x, In x s <-> In x [3; 1; 2; 3].
Proof.
  apply (set_decode_order_independent archive_uint64_ok less_uint64_ok
           [3; 1; 2; 3] [2; 2; 1; 3; 1] [9] [] [Byte.xff] false []).
  - unfold uint64_max. simpl. lia.
  - unfold uint64_max. simpl. lia.
  - reflexivity.
  - reflexivity.
  - intros x. simpl. intuition.
Defined.

(** X7: a map stream whose keys are distinct decodes to a map with exactly
    the pairs of the stream, as many as the count says, and every
    reordering of the stream decodes to the same map. *)
Theorem map_decode_order_independent {K V : Type} {AK : Archive K}
    {AV : Archive V} {LK : Less K} (HK : ArchiveOk K) (HV : ArchiveOk V)
    (HL : LessOk K) (elems1 elems2 : list (K * V)) (d1 d2 : std_map K V)
    (rest : list byte) (e : bool) (l : list event) :
  Z.of_nat (length elems1) <= uint64_max ->
  forallb (valid (Archive := archive_pair)) elems1 = true ->
  forallb (valid (Archive := archive_pair)) elems2 = true ->
  NoDup (map fst elems1) ->
  Permutation elems1 elems2 ->
  exists m l1 l2,
    deserialize_map d1
      (Machine (serialize_elements (AT := archive_pair) elems1 ++ rest) e l)
    = Returns (0, m) (Machine rest e l1)
    /\ deserialize_map d2
         (Machine (serialize_elements (AT := archive_pair) elems2 ++ rest) e l)
       = Returns (0, m) (Machine rest e l2)
    /\ length m = length elems1
    /\ forall p, In p m <-> In p elems1.
Proof.
  intros Hl1 Hv1 Hv2 Hnd Hp.
  assert (Hl2 : Z.of_nat (length elems2) <= uint64_max)
    by (rewrite <- (Permutation_length Hp); exact Hl1).
  destruct (deserialize_map_elements HK HV elems1 d1 rest e l Hl1 Hv1) as (l1 & H1).
  destruct (deserialize_map_elements HK HV elems2 d2 rest e l Hl2 Hv2) as (l2 & H2).
  rewrite fold_hinted_unhinted in H1, H2 by constructor.
  exists (fst (fold_left (unhinted fst) elems1 ([], O))), l1, l2.
  split; [exact H1|]. split; [|split].
  - rewrite H2. f_equal. f_equal. symmetry.
    apply (fold_unhinted_ext fst).
    intros k. apply find_perm_nodup; assumption.
  - apply Permutation_length. apply NoDup_Permutation.
    + apply (sorted_keys_nodup fst). apply fold_unhinted_sorted. constructor.
    + eapply NoDup_map_inv. exact Hnd.
    + intros p. apply fold_unhinted_members. exact Hnd.
  - intros p. apply fold_unhinted_members. exact Hnd.
Qed.

Lemma map_decode_order_independent_witness :
  exists m l1 l2,
    deserialize_map (K := Z) (V := std_string) [(9, [])]
      (Machine (serialize_elements (AT := archive_pair)
                  [(2, [Byte.x62]); (1, [Byte.x61]); (3, [])] ++ [Byte.xff])
               false [])
    = Returns (0, m) (Machine [Byte.xff] false l1)
    /\ deserialize_map (K := Z) (V := std_string) []
         (Machine (serialize_elements (AT := archive_pair)
                     [(1, [Byte.x61]); (3, []); (2, [Byte.x62])] ++ [Byte.xff])
                  false [])
       = Returns (0, m) (Machine [Byte.xff] false l2)
    /\ length m = length [(2, [Byte.x62]); (1, [Byte.x61]); (3, [] : std_string)]
    /\ forall p, In p m <-> In p [(2, [Byte.x62]); (1, [Byte.x61]); (3, [])].
Proof.
  apply (map_decode_order_independent (K := Z) (V := std_string)
           archive_uint64_ok archive_string_ok less_uint64_ok
           [(2, [Byte.x62]); (1, [Byte.x61]); (3, [])]
           [(1, [Byte.x61]); (3, []); (2, [Byte.x62])]).
  - unfold uint64_max. simpl. lia.
  - reflexivity.
  - reflexivity.
  - simpl. repeat constructor; simpl; intuition lia.
  - apply (Permutation_cons_app [(1, [Byte.x61]); (3, [])] []).
    apply Permutation_refl.
Defined.

(** ** The result codes *)

Lemma deserialize_uint64_codes (d : Z) (st st' : machine) (res x : Z) :
  deserialize_uint64 d st = Returns (res, x) st' ->
  res = 0 \/ res = -1 \/ res = -2.
Proof.
  intros H.
  destruct (deserialize_uint64_inv d st) as (r & y & s1 & Hd & _ & _ & Hc).
  rewrite H in Hd. inversion Hd; subst. tauto.
Qed.

Lemma deserialize_string_codes (d s : std_string) (st st' : machine) (res : Z) :
  deserialize_string d st = Returns (res, s) st' -> archive_code res.
Proof.
  unfold deserialize_string, archive_code. rewrite bind_eq.
  destruct (deserialize_int64_inv 0 st) as (r & sz & s1 & Hd & _ & _ & Hc).
  rewrite Hd.
  destruct Hc as [(-> & _) | [(-> & _) | (-> & _)]];
    try (intros H; inversion H; tauto).
  change (negb (0 =? 0)) with false. cbv iota.
  destruct (sz <? 0); [intros H; inversion H; tauto|].
  rewrite bind_eq. unfold emit. rewrite bind_eq.
  destruct (force_read sz _) as [[num buf] s2 | s2 |]; try discriminate.
  destruct (num =? -1); [intros H; inversion H; tauto|].
  destruct (num <? sz); intros H; inversion H; tauto.
Qed.

Lemma deserialize_vector_fuel_codes {T : Type} {AT : Archive T} (fuel : nat)
    (v v' : std_vector T) (st st' : machine) (res : Z) :
  deserialize_vector_fuel fuel v st = Returns (res, v') st' ->
  res = 0 \/ res = -1 \/ res = -2.
Proof.
  revert v v' st st' res.
  induction fuel as [|f IH]; intros v v' st st' res H; [discriminate|].
  simpl in H. rewrite bind_eq in H.
  destruct (deserialize_uint64 0 st) as [[r x] st1 | st1 |] eqn:Hc;
    try discriminate.
  apply deserialize_uint64_codes in Hc.
  destruct (Z.eqb_spec r 0) as [-> | Hr]; cbn [negb] in H.
  - rewrite bind_eq in H. unfold emit in H.
    destruct (Z.to_nat x) as [|n].
    { inversion H. tauto. }
    rewrite for_loop_succ in H. change (0 =? 0) with true in H. cbv iota in H.
    destruct (deserialize_vector_fuel f _ _) as [[r1 acc] st2 | st2 |] eqn:Hrec;
      try discriminate.
    apply IH in Hrec.
    destruct (negb (r1 =? 0)).
    { inversion H; subst. exact Hrec. }
    destruct n as [|n].
    { inversion H. tauto. }
    rewrite for_loop_succ in H. discriminate.
  - inversion H; subst. exact Hc.
Qed.

(** X8: no decoder invents a result code.  The string decoder returns [0],
    [-1], [-2] or [-3]; the vector decoder, which never reaches the decoder
    of its elements, returns [0], [-1] or [-2]; and when the decoders of the
    element types only return these four codes, so do the pair, list, set
    and map decoders built on them. *)
Theorem result_codes_closed {T U : Type} {AT : Archive T} {AU : Archive U}
    {LT : Less T} (st st' : machine) (res : Z) :
  (forall d s, deserialize_string d st = Returns (res, s) st' ->
               archive_code res)
  /\ (forall v v' : std_vector T,
         deserialize_vector v st = Returns (res, v') st' ->
         res = 0 \/ res = -1 \/ res = -2)
  /\ ((forall d st0 r x st1,
          deserialize (T := T) d st0 = Returns (r, x) st1 -> archive_code r) ->
      (forall d st0 r x st1,
          deserialize (T := U) d st0 = Returns (r, x) st1 -> archive_code r) ->
      (forall p p' : T * U,
          deserialize_pair p st = Returns (res, p') st' -> archive_code res)
      /\ (forall v v' : std_list T,
             deserialize_list v st = Returns (res, v') st' -> archive_code res)
      /\ (forall out out' : std_set T,
             deserialize_set out st = Returns (res, out') st' -> archive_code res)
      /\ (forall m m' : std_map T U,
             deserialize_map m st = Returns (res, m') st' -> archive_code res)).
Proof.
  split; [|split].
  - intros d s. apply deserialize_string_codes.
  - intros v v'. unfold deserialize_vector. apply deserialize_vector_fuel_codes.
  - intros HT HU.
    assert (Hpair : forall p st0 r x st1,
               deserialize_pair (T := T) (U := U) p st0 = Returns (r, x) st1 ->
               archive_code r).
    { intros p st0 r x st1 H.
      destruct (Z.eq_dec r 0) as [-> | Hr]; [left; reflexivity|].
      destruct (deserialize_pair_failure _ _ _ _ _ H Hr)
        as [(a & Ha) | (a & s1 & b & _ & Hb)].
      - exact (HT _ _ _ _ _ Ha).
      - exact (HU _ _ _ _ _ Hb). }
    assert (Hcount : forall (A : Type) (dec : M (Z * A)),
               (forall st0 r x st1, dec st0 = Returns (r, x) st1 -> archive_code r) ->
               first_failure (deserialize_uint64 0) dec res st st' ->
               archive_code res).
    { intros A dec Hdec [(x & Hx) | (sz & s1 & n & s2 & x & _ & _ & _ & Hx)].
      - apply deserialize_uint64_codes in Hx. unfold archive_code. tauto.
      - exact (Hdec _ _ _ _ Hx). }
    destruct (Z.eq_dec res 0) as [-> | Hres].
    { repeat split; intros; left; reflexivity. }
    split; [|split; [|split]].
    + intros p p'. apply Hpair.
    + intros v v' H. apply (Hcount T (deserialize fresh)).
      * intros st0 r x st1. apply HT.
      * exact (deserialize_list_failure _ _ _ _ _ H Hres).
    + intros out out' H. apply (Hcount T (deserialize fresh)).
      * intros st0 r x st1. apply HT.
      * exact (deserialize_set_failure _ _ _ _ _ H Hres).
    + intros m m' H. apply (Hcount (T * U)%type (deserialize_pair (fresh, fresh))).
      * intros st0 r x st1. apply Hpair.
      * exact (deserialize_map_failure _ _ _ _ _ H Hres).
Qed.

Lemma result_codes_closed_witness :
  archive_code (-3)
  /\ (-2 = 0 \/ -2 = -1 \/ -2 = -2)
  /\ archive_code (-3).
Proof.
  split; [|split].
  - apply (proj1 (result_codes_closed (T := Z) (U := std_string)
                    (Machine (serialize_int64 (-1)) false [])
                    (Machine [] false [EvRead 8]) (-3))
             [Byte.x7a] []).
    reflexivity.
  - apply (proj1 (proj2 (result_codes_closed (T := Z) (U := std_string)
                    (Machine (serialize_uint64 1 ++ [Byte.x01; Byte.x02]) false [])
                    (Machine [] false [EvRead 8; EvAlloc 1; EvRead 8]) (-2)))
             [] []).
    reflexivity.
  - assert (HZ : forall d st0 r x st1,
               deserialize (T := Z) d st0 = Returns (r, x) st1 -> archive_code r).
    { intros d st0 r x st1 H. apply deserialize_uint64_codes in H.
      unfold archive_code. tauto. }
    assert (HS : forall d st0 r x st1,
               deserialize (T := std_string) d st0 = Returns (r, x) st1 ->
               archive_code r).
    { intros d st0 r x st1 H. exact (deserialize_string_codes d x st0 st1 r H). }
    apply (proj2 (proj2 (proj2
             (proj2 (proj2 (result_codes_closed (T := Z) (U := std_string)
                (Machine (serialize_uint64 2 ++ serialize_uint64 1
                          ++ serialize_int64 0 ++ serialize_uint64 2
                          ++ serialize_int64 (-5)) false [])
                (Machine [] false
                   [EvRead 8; EvRead 8; EvRead 0; EvAlloc 0; EvRead 8;
                    EvRead 8; EvRead 8]) (-3))) HZ HS)))
             [] [(1, [])]).
    reflexivity.
Defined.

(** ** Vectors: the element decoder is never reached *)

Lemma deserialize_vector_fuel_indep {T : Type} (A1 A2 : Archive T) (fuel : nat)
    (v1 v2 : std_vector T) (st : machine) :
  deserialize_vector_fuel (AT := A1) fuel v1 st
  = deserialize_vector_fuel (AT := A2) fuel v2 st.
Proof.
  revert v1 v2 st. induction fuel as [|f IH]; intros v1 v2 st; [reflexivity|].
  simpl. rewrite !bind_eq.
  destruct (deserialize_uint64 0 st) as [[r x] st1 | st1 |]; try reflexivity.
  destruct (negb (r =? 0)); [reflexivity|].
  rewrite !bind_eq. unfold emit.
  destruct (Z.to_nat x) as [|n]; [reflexivity|].
  rewrite !for_loop_succ. change (0 =? 0) with true. cbv iota.
  rewrite (IH (repeat (fresh (Archive := A1)) (Datatypes.S n))
              (repeat (fresh (Archive := A2)) (Datatypes.S n))).
  destruct (deserialize_vector_fuel f _ _) as [[r1 acc] st2 | st2 |];
    try reflexivity.
  destruct (negb (r1 =? 0)); [reflexivity|].
  destruct n as [|n]; [reflexivity|].
  rewrite !for_loop_succ. reflexivity.
Qed.

(** X9: the vector decoder does not depend on the codec of its element type
    nor on what the destination held: with any two element codecs and any
    two destinations it does the same on every stream.  Whenever it returns,
    with success or with a failure code, the destination is empty. *)
Theorem vector_decode_ignores_elements {T : Type} (A1 A2 : Archive T)
    (v1 v2 : std_vector T) (st : machine) :
  deserialize_vector (AT := A1) v1 st = deserialize_vector (AT := A2) v2 st
  /\ forall res v' st',
       deserialize_vector (AT := A1) v1 st = Returns (res, v') st' -> v' = [].
Proof.
  split.
  - unfold deserialize_vector. apply deserialize_vector_fuel_indep.
  - intros res v' st'. unfold deserialize_vector.
    apply deserialize_vector_fuel_empty.
Qed.

Lemma vector_decode_ignores_elements_witness :
  deserialize_vector (AT := archive_uint64) [5; 6]
    (Machine (serialize_uint64 1 ++ serialize_uint64 0 ++ [Byte.xff]) false [])
  = deserialize_vector
      (AT := Build_Archive Z 7 (fun _ => true) (fun _ => [])
                           (fun d => ret (-3, d))) []
      (Machine (serialize_uint64 1 ++ serialize_uint64 0 ++ [Byte.xff]) false [])
  /\ ([] : std_vector Z) = [].
Proof.
  split.
  - apply (proj1 (vector_decode_ignores_elements archive_uint64 _ [5; 6] [] _)).
  - apply (proj2 (vector_decode_ignores_elements archive_uint64 archive_uint64
                    [5; 6] []
                    (Machine (serialize_uint64 1 ++ serialize_uint64 0
                              ++ [Byte.xff]) false []))
             0 []
             (Machine [Byte.xff] false [EvAlloc 0; EvRead 8; EvAlloc 1; EvRead 8])).
    reflexivity.
Defined.

(** ** Empty containers and streams that end before the count *)

(** X10: an empty list, vector, set, map or string is encoded as the eight
    bytes of a zero count or length and nothing else; decoding such a prefix
    succeeds, takes exactly these eight bytes and decodes no element.  It
    leaves the destination empty, except for the list decoder, which leaves
    the destination as it was. *)
Theorem empty_container_boundary {T U : Type} {AT : Archive T} {AU : Archive U}
    {LT : Less T} (rest : list byte) (e : bool) (l : list event) :
  (serialize_list ([] : std_list T) = serialize_uint64 0
   /\ serialize_vector ([] : std_vector T) = serialize_uint64 0
   /\ serialize_set ([] : std_set T) = serialize_uint64 0
   /\ serialize_map ([] : std_map T U) = serialize_uint64 0
   /\ serialize_string [] = serialize_int64 0)
  /\ (forall d : std_list T,
         deserialize_list d (Machine (serialize_uint64 0 ++ rest) e l)
         = Returns (0, d) (Machine rest e (EvRead 8 :: l)))
  /\ (forall d : std_vector T,
         deserialize_vector d (Machine (serialize_uint64 0 ++ rest) e l)
         = Returns (0, []) (Machine rest e (EvAlloc 0 :: EvRead 8 :: l)))
  /\ (forall d : std_set T,
         deserialize_set d (Machine (serialize_uint64 0 ++ rest) e l)
         = Returns (0, []) (Machine rest e (EvRead 8 :: l)))
  /\ (forall d : std_map T U,
         deserialize_map d (Machine (serialize_uint64 0 ++ rest) e l)
         = Returns (0, []) (Machine rest e (EvRead 8 :: l)))
  /\ (forall d : std_string,
         deserialize_string d (Machine (serialize_int64 0 ++ rest) e l)
         = Returns (0, [])
             (Machine rest e (EvRead 0 :: EvAlloc 0 :: EvRead 8 :: l))).
Proof.
  assert (H0 : 0 <= 0 <= uint64_max) by (unfold uint64_max; simpl; lia).
  split; [|split; [|split; [|split; [|split]]]].
  - unfold serialize_list, serialize_vector, serialize_set, serialize_map,
      serialize_string, serialize_elements. simpl length. simpl concat.
    change (Z.of_nat 0) with 0. rewrite !app_nil_r. repeat split.
  - intros d. unfold deserialize_list.
    rewrite bind_eq, deserialize_uint64_serialize by exact H0. reflexivity.
  - intros d. rewrite deserialize_vector_step.
    rewrite bind_eq, deserialize_uint64_serialize by exact H0. reflexivity.
  - intros d. unfold deserialize_set.
    rewrite bind_eq, deserialize_uint64_serialize by exact H0. reflexivity.
  - intros d. unfold deserialize_map.
    rewrite bind_eq, deserialize_uint64_serialize by exact H0. reflexivity.
  - intros d.
    exact (deserialize_string_serialize [] d rest e l ltac:(simpl; lia)).
Qed.

(** X11: on a stream that ends before the eight bytes of the count or
    length are there, every counted decoder returns [-2], or [-1] when the
    source fails instead of ending, decodes nothing and uses the stream up.
    The destination is left empty, except by the list decoder, which leaves
    it as it was. *)
Theorem short_count_rejected {T U : Type} {AT : Archive T} {AU : Archive U}
    {LT : Less T} (st : machine) :
  (length (pending st) < 8)%nat ->
  let code := if hard_error st then -1 else -2 in
  let st' := Machine [] (hard_error st) (EvRead 8 :: log st) in
  (forall d : std_list T, deserialize_list d st = Returns (code, d) st')
  /\ (forall d : std_vector T, deserialize_vector d st = Returns (code, []) st')
  /\ (forall d : std_set T, deserialize_set d st = Returns (code, []) st')
  /\ (forall d : std_map T U, deserialize_map d st = Returns (code, []) st')
  /\ (forall d : std_string, deserialize_string d st = Returns (code, []) st').
Proof.
  intros Hshort code st'. subst code st'.
  split; [|split; [|split; [|split]]]; intros d.
  - unfold deserialize_list.
    rewrite bind_eq, deserialize_uint64_short by exact Hshort.
    destruct (hard_error st); reflexivity.
  - rewrite deserialize_vector_step.
    rewrite bind_eq, deserialize_uint64_short by exact Hshort.
    destruct (hard_error st); reflexivity.
  - unfold deserialize_set.
    rewrite bind_eq, deserialize_uint64_short by exact Hshort.
    destruct (hard_error st); reflexivity.
  - unfold deserialize_map.
    rewrite bind_eq, deserialize_uint64_short by exact Hshort.
    destruct (hard_error st); reflexivity.
  - unfold deserialize_string.
    rewrite bind_eq, deserialize_int64_short by exact Hshort.
    destruct (hard_error st); reflexivity.
Qed.

Lemma short_count_rejected_witness :
  (forall d : std_list Z,
      deserialize_list d (Machine [Byte.x03; Byte.x00; Byte.x00] true [])
      = Returns (-1, d) (Machine [] true [EvRead 8]))
  /\ (forall d : std_vector Z,
      deserialize_vector d (Machine [Byte.x03; Byte.x00; Byte.x00] true [])
      = Returns (-1, []) (Machine [] true [EvRead 8]))
  /\ (forall d : std_set Z,
      deserialize_set d (Machine [Byte.x03; Byte.x00; Byte.x00] true [])
      = Returns (-1, []) (Machine [] true [EvRead 8]))
  /\ (forall d : std_map Z std_string,
      deserialize_map d (Machine [Byte.x03; Byte.x00; Byte.x00] true [])
      = Returns (-1, []) (Machine [] true [EvRead 8]))
  /\ (forall d : std_string,
      deserialize_string d (Machine [Byte.x03; Byte.x00; Byte.x00] true [])
      = Returns (-1, []) (Machine [] true [EvRead 8])).
Proof.
  apply (short_count_rejected (T := Z) (U := std_string)
           (Machine [Byte.x03; Byte.x00; Byte.x00] true [])).
  simpl. lia.
Defined.


Lemma roundtrip_but_vector_witness :
  (exists l', deserialize_pair (T := Z) (U := std_string) (fresh, fresh)
                (Machine (serialize_pair (42, [Byte.x68; Byte.x69]) ++ [Byte.xff])
                         false [])
              = Returns (0, (42, [Byte.x68; Byte.x69])) (Machine [Byte.xff] false l'))
  /\ (exists l', deserialize_list (T := Z) []
                   (Machine (serialize_list [3; 3; 1] ++ [Byte.xff]) false [])
                 = Returns (0, [3; 3; 1]) (Machine [Byte.xff] false l'))
  /\ (exists l', deserialize_set (T := Z) []
                   (Machine (serialize_set [1; 3; 5] ++ [Byte.xff]) false [])
                 = Returns (0, [1; 3; 5]) (Machine [Byte.xff] false l'))
  /\ (exists l', deserialize_map (K := Z) (V := std_string) []
                   (Machine (serialize_map [(1, [Byte.x61]); (3, []); (5, [Byte.x65])]
                             ++ [Byte.xff]) false [])
                 = Returns (0, [(1, [Byte.x61]); (3, []); (5, [Byte.x65])])
                     (Machine [Byte.xff] false l'))
  /\ (exists l', deserialize_string []
                   (Machine (serialize_string [] ++ [Byte.xff]) false [])
                 = Returns (0, []) (Machine [Byte.xff] false l')).
Proof.
  pose proof (roundtrip_but_vector (T := Z) (U := std_string)
                archive_uint64_ok archive_string_ok less_uint64_ok
                [Byte.xff] false []) as (Hp & Hl & Hs & Hm & Hstr).
  split; [|split; [|split; [|split]]].
  - apply Hp. reflexivity.
  - apply Hl. reflexivity.
  - apply Hs. reflexivity.
  - apply Hm. reflexivity.
  - apply Hstr. reflexivity.
Defined.

(** ** Vectors: behind index zero *)

(** X13: with a count of two or more, when the decode the vector decoder
    makes at index [0] (the vector decoder itself, on the same destination)
    succeeds, the decoder goes on to index [1], that is to the address behind
    the destination, and has no defined behaviour from there on; with a count
    of one it returns that success, with the destination empty. *)
Theorem vector_beyond_first_index {T : Type} {AT : Archive T}
    (v v' : std_vector T) (st st1 st2 : machine) (sz : Z) :
  deserialize_uint64 0 st = Returns (0, sz) st1 ->
  deserialize_vector (repeat fresh (Z.to_nat sz))
    (Machine (pending st1) (hard_error st1) (EvAlloc sz :: log st1))
  = Returns (0, v') st2 ->
  (sz = 1 -> deserialize_vector v st = Returns (0, []) st2)
  /\ (2 <= sz -> deserialize_vector v st = Undefined st2).
Proof.
  intros Hc Hrec.
  pose proof (deserialize_vector_returns_empty _ _ _ _ _ Hrec) as ->.
  split; intros Hsz.
  - rewrite deserialize_vector_step, (bind_returns _ _ _ _ _ Hc).
    change (negb (0 =? 0)) with false. cbv iota.
    rewrite bind_eq. unfold emit. subst sz.
    change (Z.to_nat 1) with 1%nat in *.
    rewrite for_loop_succ. change (0 =? 0) with true. cbv iota.
    rewrite Hrec. reflexivity.
  - rewrite deserialize_vector_step, (bind_returns _ _ _ _ _ Hc).
    change (negb (0 =? 0)) with false. cbv iota.
    rewrite bind_eq. unfold emit.
    destruct (Z.to_nat sz) as [|[|n]] eqn:Hn; try lia.
    rewrite for_loop_succ. change (0 =? 0) with true. cbv iota.
    rewrite Hrec. change (negb (0 =? 0)) with false. cbv iota.
    rewrite for_loop_succ. reflexivity.
Qed.

Lemma vector_beyond_first_index_witness :
  (2 = 1 ->
   deserialize_vector (T := Z) [7]
     (Machine (serialize_vector (T := Z) [0; 5]) false [])
   = Returns (0, [])
       (Machine (serialize_uint64 5) false [EvAlloc 0; EvRead 8; EvAlloc 2; EvRead 8]))
  /\ (2 <= 2 ->
      deserialize_vector (T := Z) [7]
        (Machine (serialize_vector (T := Z) [0; 5]) false [])
      = Undefined
          (Machine (serialize_uint64 5) false
             [EvAlloc 0; EvRead 8; EvAlloc 2; EvRead 8])).
Proof.
  apply (vector_beyond_first_index (T := Z) [7] []
           (Machine (serialize_vector (T := Z) [0; 5]) false [])
           (Machine (serialize_uint64 0 ++ serialize_uint64 5) false [EvRead 8])
           (Machine (serialize_uint64 5) false
              [EvAlloc 0; EvRead 8; EvAlloc 2; EvRead 8]) 2).
  - reflexivity.
  - reflexivity.
Defined.

(** ** Encodings are unambiguous *)

(** A codec that decodes what it encoded cannot encode two values so that
    one encoding, or one followed by more bytes, is the other followed by
    more bytes. *)
Lemma roundtrip_unambiguous {T : Type} {AT : Archive T} (HT : ArchiveOk T)
    (v1 v2 : T) (r1 r2 : list byte) :
  valid v1 = true -> valid v2 = true ->
  serialize v1 ++ r1 = serialize v2 ++ r2 ->
  v1 = v2 /\ r1 = r2.
Proof.
  intros H1 H2 Heq.
  destruct (roundtrip v1 r1 false [] H1) as (l1 & Hd1).
  destruct (roundtrip v2 r2 false [] H2) as (l2 & Hd2).
  rewrite Heq, Hd2 in Hd1. inversion Hd1. auto.
Qed.

(** X14: the encodings of pairs, lists, sets, maps and strings are
    unambiguous: when the encodings of two values of the type, each followed
    by further bytes, are the same byte sequence, the two values are equal
    and so are the bytes that follow.  In particular no encoding is a proper
    prefix of another. *)
Theorem encoding_unambiguous {T U : Type} {AT : Archive T} {AU : Archive U}
    {LT : Less T} (HT : ArchiveOk T) (HU : ArchiveOk U) (HL : LessOk T)
    (r1 r2 : list byte) :
  (forall p1 p2 : T * U,
      valid (Archive := archive_pair) p1 = true ->
      valid (Archive := archive_pair) p2 = true ->
      serialize_pair p1 ++ r1 = serialize_pair p2 ++ r2 -> p1 = p2 /\ r1 = r2)
  /\ (forall v1 v2 : std_list T,
      valid (Archive := archive_list) v1 = true ->
      valid (Archive := archive_list) v2 = true ->
      serialize_list v1 ++ r1 = serialize_list v2 ++ r2 -> v1 = v2 /\ r1 = r2)
  /\ (forall s1 s2 : std_set T,
      valid (Archive := archive_set) s1 = true ->
      valid (Archive := archive_set) s2 = true ->
      serialize_set s1 ++ r1 = serialize_set s2 ++ r2 -> s1 = s2 /\ r1 = r2)
  /\ (forall m1 m2 : std_map T U,
      valid (Archive := archive_map) m1 = true ->
      valid (Archive := archive_map) m2 = true ->
      serialize_map m1 ++ r1 = serialize_map m2 ++ r2 -> m1 = m2 /\ r1 = r2)
  /\ (forall s1 s2 : std_string,
      valid s1 = true -> valid s2 = true ->
      serialize_string s1 ++ r1 = serialize_string s2 ++ r2 ->
      s1 = s2 /\ r1 = r2).
Proof.
  split; [|split; [|split; [|split]]].
  - intros p1 p2. apply (roundtrip_unambiguous (archive_pair_ok HT HU)).
  - intros v1 v2. apply (roundtrip_unambiguous (archive_list_ok HT)).
  - intros s1 s2. apply (roundtrip_unambiguous (archive_set_ok HT HL)).
  - intros m1 m2. apply (roundtrip_unambiguous (archive_map_ok HT HU HL)).
  - intros s1 s2. apply (roundtrip_unambiguous archive_string_ok).
Qed.

Lemma encoding_unambiguous_witness :
  ([Byte.x68; Byte.x69] : std_string) = [Byte.x68; Byte.x69]
  /\ [Byte.x01; Byte.x02] = [Byte.x01; Byte.x02].
Proof.
  apply (proj2 (proj2 (proj2 (proj2
           (encoding_unambiguous (T := Z) (U := std_string)
              archive_uint64_ok archive_string_ok less_uint64_ok
              [Byte.x01; Byte.x02] [Byte.x01; Byte.x02]))))
           [Byte.x68; Byte.x69] [Byte.x68; Byte.x69]).
  - reflexivity.
  - reflexivity.
  - reflexivity.
Defined.
